(** * GLUS static memory manager (glus_memory_no_dm.c)

    A shallow embedding of the allocator of [src/glus_memory_no_dm.c]: the
    arena [g_memory], the block table [g_memoryTable], the counter
    [g_memoryTableEntries], and the functions working on them, followed by
    the properties of the specification that were checked against them.

    Conventions.
    - [size_t] is the 64-bit unsigned type of an LP64 target: a [Z] in
      [0, 2^64), every arithmetic result reduced by [to_size_t].
    - table indices ([GLUSuint] counters, always below 1024) are [nat].
    - a pointer is its machine address, a [Z]; the null pointer is [0].
      The arena's own address is not fixed by the source, so the initial
      state takes it as an argument. *)

From Stdlib Require Import ZArith Lia Bool.
From stdpp Require Import base numbers list.

Open Scope Z_scope.

(** ** Constants *)

(** [#define GLUS_MEMORY_SIZE (16*1024*1024/4)]: number of 32-bit words. *)
Definition GLUS_MEMORY_SIZE : Z := 16 * 1024 * 1024 / 4.

(** [#define GLUS_MEMORY_TABLE_ENTRIES 1024] *)
Definition GLUS_MEMORY_TABLE_ENTRIES : nat := 1024.

(** One past the largest [size_t]. *)
Definition SIZE_MODULUS : Z := 2 ^ 64.

Definition to_size_t (z : Z) : Z := z mod SIZE_MODULUS.

(** The word size the source divides and multiplies by. *)
Definition WORD : Z := 4.

(** ** Data *)

(** [struct _GLUSmemoryTable]. *)
Record GLUSmemoryTable : Type := mkEntry {
  valid : bool;
  free : bool;
  startIndex : Z;
  length : Z;
  pointer : Z
}.

(** A slot of static storage that no initialiser mentions: all zero. *)
Definition zero_entry : GLUSmemoryTable :=
  {| valid := false; free := false; startIndex := 0; length := 0; pointer := 0 |}.

(** The three file-scope objects. [g_memory] maps a word index to the
    32-bit value stored there. *)
Record state : Type := mkState {
  g_memory : Z -> Z;
  g_memoryTable : list GLUSmemoryTable;
  g_memoryTableEntries : nat
}.

(** [g_memoryTable[i]]; every access of the source is guarded by
    [i < GLUS_MEMORY_TABLE_ENTRIES]. *)
Definition entry_at (t : list GLUSmemoryTable) (i : nat) : GLUSmemoryTable :=
  default zero_entry (t !! i).

(** The static initialisers: slot 0 is
    [{GLUS_TRUE, GLUS_TRUE, 0, GLUS_MEMORY_SIZE, (void* )g_memory}], the
    other slots and the arena are zero, and the counter is 1. *)
Definition initial_table (arena : Z) : list GLUSmemoryTable :=
  {| valid := true; free := true; startIndex := 0;
     length := GLUS_MEMORY_SIZE; pointer := arena |}
  :: replicate (GLUS_MEMORY_TABLE_ENTRIES - 1) zero_entry.

Definition initial_state (arena : Z) : state :=
  {| g_memory := fun _ => 0;
     g_memoryTable := initial_table arena;
     g_memoryTableEntries := 1 |}.

(** The block states of the specification, read off the two flags. *)
Inductive block_state : Type := Unused | Free | Allocated.

Definition state_of (e : GLUSmemoryTable) : block_state :=
  if valid e then (if free e then Free else Allocated) else Unused.

(** The address the specification gives a block: arena base plus
    [start * W]. *)
Definition address (arena : Z) (e : GLUSmemoryTable) : Z :=
  arena + startIndex e * WORD.

(** ** The loops

    Every [while (tableIndex < g_memoryTableEntries && tableIndex <
    GLUS_MEMORY_TABLE_ENTRIES)] loop runs its counter up to this limit. *)
Definition scan_limit (st : state) : nat :=
  Nat.min (g_memoryTableEntries st) GLUS_MEMORY_TABLE_ENTRIES.

(** A loop that leaves at the first slot whose entry satisfies [p]:
    [tableIndex] is the counter, [rem] the iterations left. *)
Fixpoint first_index (p : GLUSmemoryTable -> bool) (t : list GLUSmemoryTable)
    (tableIndex rem : nat) : option nat :=
  match rem with
  | O => None
  | S r =>
      if p (entry_at t tableIndex) then Some tableIndex
      else first_index p t (S tableIndex) r
  end.

(** [glusFindMemoryTableEntry]: the first slot that is not valid. *)
Definition glusFindMemoryTableEntry (st : state) : option nat :=
  first_index (fun e => negb (valid e)) (g_memoryTable st) 0 (scan_limit st).

(** [glusInitMemoryTableEntry]. The pointer field receives
    [(void* )g_memory[startIndex]]: the word stored at [startIndex],
    converted to a pointer. [g_memory] is total here; in the states of a
    run the index read lies inside the array (lemma
    [remainder_start_in_arena]). *)
Definition glusInitMemoryTableEntry (tableIndex : nat) (start len : Z)
    (st : state) : bool * state :=
  if (GLUS_MEMORY_TABLE_ENTRIES <=? tableIndex)%nat then (false, st)
  else
    (true,
     {| g_memory := g_memory st;
        g_memoryTable :=
          <[tableIndex :=
              {| valid := true; free := true; startIndex := start;
                 length := len; pointer := g_memory st start |}]>
            (g_memoryTable st);
        g_memoryTableEntries :=
          if (tableIndex =? g_memoryTableEntries st)%nat
          then S (g_memoryTableEntries st)
          else g_memoryTableEntries st |}).

(** *** Garbage collection *)

Definition set_length (e : GLUSmemoryTable) (l : Z) : GLUSmemoryTable :=
  {| valid := valid e; free := free e; startIndex := startIndex e;
     length := l; pointer := pointer e |}.

Definition set_valid (e : GLUSmemoryTable) (b : bool) : GLUSmemoryTable :=
  {| valid := b; free := free e; startIndex := startIndex e;
     length := length e; pointer := pointer e |}.

Definition set_free (e : GLUSmemoryTable) (b : bool) : GLUSmemoryTable :=
  {| valid := valid e; free := b; startIndex := startIndex e;
     length := length e; pointer := pointer e |}.

(** [a.startIndex + a.length / 4 == b.startIndex] *)
Definition adjacent (a b : GLUSmemoryTable) : bool :=
  to_size_t (startIndex a + length a / 4) =? startIndex b.

(** The loop over [otherTableIndex], for a fixed [tableIndex]. *)
Fixpoint gc_inner (rem tableIndex otherTableIndex : nat)
    (t : list GLUSmemoryTable) (continueGC : bool)
    : list GLUSmemoryTable * bool :=
  match rem with
  | O => (t, continueGC)
  | S r =>
      if (otherTableIndex =? tableIndex)%nat
      then gc_inner r tableIndex (S otherTableIndex) t continueGC
      else
        let a := entry_at t tableIndex in
        let b := entry_at t otherTableIndex in
        if valid b && free b && adjacent a b then
          let t1 :=
            <[tableIndex := set_length a (to_size_t (length a + length b))]> t in
          let t2 :=
            <[otherTableIndex := set_valid (entry_at t1 otherTableIndex) false]> t1 in
          gc_inner r tableIndex (S otherTableIndex) t2 true
        else gc_inner r tableIndex (S otherTableIndex) t continueGC
  end.

(** The loop over [tableIndex]; [limit] is the bound of both loops. *)
Fixpoint gc_outer (rem tableIndex limit : nat)
    (t : list GLUSmemoryTable) (continueGC : bool)
    : list GLUSmemoryTable * bool :=
  match rem with
  | O => (t, continueGC)
  | S r =>
      let a := entry_at t tableIndex in
      let '(t', c') :=
        if valid a && free a then gc_inner limit tableIndex 0 t continueGC
        else (t, continueGC) in
      gc_outer r (S tableIndex) limit t' c'
  end.

(** One round of the [while (continueGC)] loop: the table after it and
    the flag it leaves. *)
Definition gc_pass (limit : nat) (t : list GLUSmemoryTable)
    : list GLUSmemoryTable * bool :=
  gc_outer limit 0 limit t false.

(** The [while (continueGC)] loop, with a bound on its rounds. *)
Fixpoint gc_loop (fuel limit : nat) (t : list GLUSmemoryTable)
    : option (list GLUSmemoryTable) :=
  match fuel with
  | O => None
  | S f =>
      let '(t', continueGC) := gc_pass limit t in
      if continueGC then gc_loop f limit t' else Some t'
  end.

(** Number of valid entries: every round that merges lowers it, so one
    more round than this always suffices (lemma [gc_loop_terminates]). *)
Fixpoint count_valid (t : list GLUSmemoryTable) : nat :=
  match t with
  | [] => O
  | e :: r => ((if valid e then 1 else 0) + count_valid r)%nat
  end.

Definition with_table (st : state) (t : list GLUSmemoryTable) : state :=
  {| g_memory := g_memory st; g_memoryTable := t;
     g_memoryTableEntries := g_memoryTableEntries st |}.

(** [glusGarbageCollect]. *)
Definition glusGarbageCollect (st : state) : state :=
  match gc_loop (S (count_valid (g_memoryTable st))) (scan_limit st)
          (g_memoryTable st) with
  | Some t => with_table st t
  | None => st
  end.

(** *** Allocation *)

(** [size % 4 == 0 ? size : (size / 4 + 1) * 4] *)
Definition allocated_length (size : Z) : Z :=
  if size mod 4 =? 0 then size else to_size_t ((size / 4 + 1) * 4).

(** The test of the search loop of [glusInternalMalloc]. *)
Definition fits (size : Z) (e : GLUSmemoryTable) : bool :=
  valid e && free e && (size <=? length e).

(** The slot the remainder is written to: a slot found by
    [glusFindMemoryTableEntry], else [tableIndex + 1]. *)
Definition other_index (st : state) (tableIndex : nat) : nat :=
  match glusFindMemoryTableEntry st with
  | Some i => i
  | None => S tableIndex
  end.

(** The body run at the slot [tableIndex] the search stops at. *)
Definition grant (size allocatedLength : Z) (tableIndex : nat) (st : state)
    : Z * state :=
  let e := entry_at (g_memoryTable st) tableIndex in
  let otherTableIndex := other_index st tableIndex in
  let '(ok, st1) :=
    glusInitMemoryTableEntry otherTableIndex
      (to_size_t (startIndex e + allocatedLength / 4))
      (to_size_t (length e - allocatedLength)) st in
  let e1 := entry_at (g_memoryTable st1) tableIndex in
  let allocatedLength' := if ok then allocatedLength else length e1 in
  let e2 := set_length (set_free e1 false) allocatedLength' in
  (pointer e2, with_table st1 (<[tableIndex := e2]> (g_memoryTable st1))).

(** [glusInternalMalloc]: the returned pointer and the state left. *)
Definition glusInternalMalloc (size : Z) (st : state) : Z * state :=
  let allocatedLength := allocated_length size in
  if allocatedLength <? size then (0, st)
  else
    match first_index (fits size) (g_memoryTable st) 0 (scan_limit st) with
    | Some tableIndex => grant size allocatedLength tableIndex st
    | None => (0, st)
    end.

(** [glusMalloc] *)
Definition glusMalloc (size : Z) (st : state) : Z * state :=
  if size =? 0 then (0, st)
  else
    let '(p, st1) := glusInternalMalloc size st in
    if p =? 0 then glusInternalMalloc size (glusGarbageCollect st1)
    else (p, st1).

(** [glusFree] *)
Definition glusFree (p : Z) (st : state) : state :=
  if p =? 0 then st
  else
    match first_index (fun e => pointer e =? p) (g_memoryTable st) 0
            (scan_limit st) with
    | Some tableIndex =>
        with_table st
          (<[tableIndex := set_free (entry_at (g_memoryTable st) tableIndex) true]>
             (g_memoryTable st))
    | None => st
    end.

(** A client storing the 32-bit value [v] through a pointer into the
    arena, at word [i]. The allocator never does this itself. *)
Definition store_word (i v : Z) (st : state) : state :=
  {| g_memory := fun j => if j =? i then v else g_memory st j;
     g_memoryTable := g_memoryTable st;
     g_memoryTableEntries := g_memoryTableEntries st |}.

(** ** Runs of the program *)

(** The states the program can be in: the static initial state, followed
    by calls of the two public functions with arguments of their types and
    by stores of the clients into the arena. *)
Inductive reachable (arena : Z) : state -> Prop :=
  | reach_init : reachable arena (initial_state arena)
  | reach_malloc st size :
      reachable arena st -> 0 <= size < SIZE_MODULUS ->
      reachable arena (snd (glusMalloc size st))
  | reach_free st p :
      reachable arena st -> reachable arena (glusFree p st)
  | reach_store st i v :
      reachable arena st -> 0 <= i < GLUS_MEMORY_SIZE -> 0 <= v < 2 ^ 32 ->
      reachable arena (store_word i v st).

(** What every reachable table satisfies: lengths are whole words and each
    block ends inside the first [GLUS_MEMORY_SIZE] bytes. *)
Definition entry_ok (e : GLUSmemoryTable) : Prop :=
  0 <= startIndex e /\ 0 <= length e /\ length e mod 4 = 0 /\
  4 * startIndex e + length e <= GLUS_MEMORY_SIZE.

Definition table_inv (st : state) : Prop :=
  List.length (g_memoryTable st) = GLUS_MEMORY_TABLE_ENTRIES /\
  (g_memoryTableEntries st <= GLUS_MEMORY_TABLE_ENTRIES)%nat /\
  Forall entry_ok (g_memoryTable st).

(** * Notions used in the statements and in the proofs *)

(** ** Merging *)

(** The merge of the source: slot [i] grows by the length of slot [j],
    slot [j] stops being valid. *)
Definition merge (t : list GLUSmemoryTable) (i j : nat) : list GLUSmemoryTable :=
  let a := entry_at t i in
  let b := entry_at t j in
  let t1 := <[i := set_length a (to_size_t (length a + length b))]> t in
  <[j := set_valid (entry_at t1 j) false]> t1.

(** The test under which the inner loop merges slot [j] into slot [i]. *)
Definition mergeable (t : list GLUSmemoryTable) (i j : nat) : bool :=
  valid (entry_at t j) && free (entry_at t j)
  && adjacent (entry_at t i) (entry_at t j).

Definition row_quiet (t : list GLUSmemoryTable) (i lo hi : nat) : Prop :=
  forall j, (lo <= j < hi)%nat -> j <> i -> mergeable t i j = false.

(** No slot of the scanned range can be merged into another one. *)
Definition rows_quiet (t : list GLUSmemoryTable) (lo hi limit : nat) : Prop :=
  forall i, (lo <= i < hi)%nat ->
    valid (entry_at t i) && free (entry_at t i) = true ->
    row_quiet t i 0 limit.

(** ** Rounding and splitting *)

(** The size rounded up to the next multiple of the word size, in
    unbounded arithmetic. *)
Definition rounded_size (size : Z) : Z := (size + 3) / 4 * 4.

(** The test of the specification: a Free block that holds the rounded
    size. *)
Definition fits_rounded (size : Z) (e : GLUSmemoryTable) : bool :=
  match state_of e with
  | Free => rounded_size size <=? length e
  | _ => false
  end.

(** The entry [glusInitMemoryTableEntry] writes for the remainder. *)
Definition remainder_entry (st : state) (e : GLUSmemoryTable) (al : Z)
    : GLUSmemoryTable :=
  {| valid := true; free := true;
     startIndex := to_size_t (startIndex e + al / 4);
     length := to_size_t (length e - al);
     pointer := g_memory st (to_size_t (startIndex e + al / 4)) |}.

(** ** Free capacity and byte ranges *)

(** Total free capacity: the lengths of the Free blocks among the scanned
    slots, added up. *)
Definition total_free (st : state) : Z :=
  foldr (fun e acc => match state_of e with Free => length e + acc | _ => acc end)
    0 (take (scan_limit st) (g_memoryTable st)).

(** Two blocks share a byte of the arena. *)
Definition byte_range_overlap (a b : GLUSmemoryTable) : Prop :=
  exists x, WORD * startIndex a <= x < WORD * startIndex a + length a /\
            WORD * startIndex b <= x < WORD * startIndex b + length b.

(** ** Tiling of the arena *)

(** [x] lies in the range of the block, its length counted in units of
    [unit] bytes: [unit = 1] reads the range [start, start + length) as it
    is written, [unit = WORD] reads it in words, the unit of [start]. *)
Definition covers (unit : Z) (e : GLUSmemoryTable) (x : Z) : Prop :=
  startIndex e <= x < startIndex e + length e / unit.

(** Slot [i] is among the activated slots and holds a Free or Allocated
    block. *)
Definition live (st : state) (i : nat) : Prop :=
  (i < scan_limit st)%nat /\ state_of (entry_at (g_memoryTable st) i) <> Unused.

(** The live blocks tile [0, hi): no gap, no overlap, nothing outside. *)
Definition tiles (unit hi : Z) (st : state) : Prop :=
  forall x,
    (0 <= x < hi ->
     exists i, live st i /\ covers unit (entry_at (g_memoryTable st) i) x) /\
    (forall i j, live st i -> live st j ->
       covers unit (entry_at (g_memoryTable st) i) x ->
       covers unit (entry_at (g_memoryTable st) j) x -> i = j) /\
    (forall i, live st i -> covers unit (entry_at (g_memoryTable st) i) x ->
       0 <= x < hi).

(** ** States of particular runs *)

(** A state of a run in which slot 0 is Free again next to the Free
    remainder in slot 1: [malloc(8)], then [free] of the pointer it
    returned. *)
Definition two_free_blocks_state : state :=
  glusFree 4096 (glusMalloc 8 (initial_state 4096)).2.

(** A state of a run with free capacity in two blocks that are not
    neighbours: [malloc(8)] twice, then [free] of the first pointer. The
    second call leaves slots 1 and 2 Allocated. *)
Definition fragmented_state : state :=
  glusFree 4096 (glusMalloc 8 (glusMalloc 8 (initial_state 4096)).2).2.

(** [malloc(8)], [free] of its result, [malloc(4)]: the second grant
    finds no invalid slot and writes its remainder over slot 1, which held
    the Free block of the rest of the arena. *)
Definition overwritten_state : state :=
  (glusMalloc 4 (glusFree 4096 (glusMalloc 8 (initial_state 4096)).2)).2.

(** ** Filling the table

    [malloc(8)] followed by 511 times [malloc(4)]. From the second call
    on, each call grants a block twice: the pointer of a block created by
    a split is the zero read from the arena (C2), [glusMalloc] takes it
    for a failure, collects and allocates again. After the last call all
    1024 slots are activated and valid. *)
Definition chain_head (f : bool) : GLUSmemoryTable :=
  {| valid := true; free := f; startIndex := 0; length := 8; pointer := 4096 |}.

Definition chain_entry (j : nat) : GLUSmemoryTable :=
  {| valid := true; free := false; startIndex := Z.of_nat j + 1;
     length := 4; pointer := 0 |}.

Definition chain_rest (k : nat) : GLUSmemoryTable :=
  {| valid := true; free := true; startIndex := Z.of_nat k + 2;
     length := GLUS_MEMORY_SIZE - 8 - 4 * Z.of_nat k; pointer := 0 |}.

(** The table after [k] grants of 4 bytes: the block of 8 bytes in slot
    0 (Free iff [f]), [k] Allocated blocks of 4 bytes, and the Free rest. *)
Definition chain_shape (f : bool) (k : nat) (st : state) : Prop :=
  (forall x, g_memory st x = 0) /\
  List.length (g_memoryTable st) = GLUS_MEMORY_TABLE_ENTRIES /\
  g_memoryTableEntries st = (k + 2)%nat /\
  entry_at (g_memoryTable st) 0 = chain_head f /\
  (forall j, (1 <= j <= k)%nat -> entry_at (g_memoryTable st) j = chain_entry j) /\
  entry_at (g_memoryTable st) (S k) = chain_rest k.

Definition malloc4 (st : state) : state := (glusMalloc 4 st).2.

(** The state with a full table, and slot 0 released. *)
Definition full_table_state : state :=
  glusFree 4096 (Nat.iter 511 malloc4 (glusMalloc 8 (initial_state 4096)).2).

(** ** What the collector may change *)

(** The length a block contributes to the free capacity. *)
Definition free_length (e : GLUSmemoryTable) : Z :=
  match state_of e with Free => length e | _ => 0 end.

(** The sum that [total_free] takes, over any list of entries. *)
Definition free_sum (t : list GLUSmemoryTable) : Z :=
  foldr (fun e acc => match state_of e with Free => length e + acc | _ => acc end)
    0 t.

(** [t'] differs from [t] at most in the lengths and validity of blocks
    that were Free in [t]: starts, pointers and free flags are those of
    [t], no slot has become valid, and the slots that were not Free are
    unchanged. *)
Definition gc_frame (t t' : list GLUSmemoryTable) : Prop :=
  List.length t' = List.length t /\
  forall k,
    startIndex (entry_at t' k) = startIndex (entry_at t k) /\
    pointer (entry_at t' k) = pointer (entry_at t k) /\
    free (entry_at t' k) = free (entry_at t k) /\
    (valid (entry_at t' k) = true -> valid (entry_at t k) = true) /\
    (state_of (entry_at t k) <> Free -> entry_at t' k = entry_at t k).

(** ** Blocks and regions *)

(** No two valid entries of the table share a byte. *)
Definition blocks_disjoint (t : list GLUSmemoryTable) : Prop :=
  forall i j, i <> j ->
    valid (entry_at t i) = true -> valid (entry_at t j) = true ->
    ~ byte_range_overlap (entry_at t i) (entry_at t j).

(** The regions of [l] bytes at address [p] and of [m] bytes at address
    [q] share a byte. *)
Definition region_overlap (p l q m : Z) : Prop :=
  exists x, p <= x < p + l /\ q <= x < q + m.

(** The state in which [glusMalloc] finds its block: the state it is
    called in when some block passes the test of the search loop there,
    else the state the collector leaves (lines 225 to 234). *)
Definition search_state (size : Z) (st : state) : state :=
  match first_index (fits size) (g_memoryTable st) 0 (scan_limit st) with
  | Some _ => st
  | None => glusGarbageCollect st
  end.

(** [p = malloc(16)], the client stores 4100 in word 2 of its block,
    [free(p)], [malloc(8)], [malloc(8)]. The last call grants the block
    that starts at word 2, address 4104, whose pointer was read from the
    arena when the block was split off: 4100. *)
Definition stale_pointer_state : state :=
  (glusMalloc 8
     (glusMalloc 8
        (glusFree 4096
           (store_word 2 4100 (glusMalloc 16 (initial_state 4096)).2))).2).2.

(** * Lemmas *)

(** Linear arithmetic with the divisions and remainders by 4 and by
    [SIZE_MODULUS] that the source computes. *)
Ltac zlia :=
  unfold to_size_t, SIZE_MODULUS, GLUS_MEMORY_SIZE, WORD in *;
  Z.to_euclidean_division_equations; lia.

(** ** Reading the table *)

Lemma entry_at_insert_eq (t : list GLUSmemoryTable) i x :
  (i < List.length t)%nat -> entry_at (<[i := x]> t) i = x.
Proof.
  intros Hi. unfold entry_at. by rewrite list_lookup_insert_eq.
Qed.

Lemma entry_at_insert_ne (t : list GLUSmemoryTable) i j x :
  i <> j -> entry_at (<[i := x]> t) j = entry_at t j.
Proof.
  intros Hne. unfold entry_at. by rewrite list_lookup_insert_ne.
Qed.

Lemma entry_at_ge (t : list GLUSmemoryTable) i :
  (List.length t <= i)%nat -> entry_at t i = zero_entry.
Proof.
  intros Hi. unfold entry_at. by rewrite lookup_ge_None_2.
Qed.

Lemma valid_in_table (t : list GLUSmemoryTable) i :
  valid (entry_at t i) = true -> (i < List.length t)%nat.
Proof.
  intros Hv. destruct (decide (i < List.length t)%nat) as [|Hge]; [done|].
  rewrite entry_at_ge in Hv by lia. discriminate.
Qed.

Lemma entry_at_ok (t : list GLUSmemoryTable) i :
  Forall entry_ok t -> entry_ok (entry_at t i).
Proof.
  intros HF. unfold entry_at. destruct (t !! i) as [e|] eqn:E; simpl.
  - eapply Forall_lookup_1; eauto.
  - unfold entry_ok, GLUS_MEMORY_SIZE; simpl. zlia.
Qed.

Lemma Forall_insert_ok (t : list GLUSmemoryTable) i x :
  Forall entry_ok t -> entry_ok x -> Forall entry_ok (<[i := x]> t).
Proof. intros. by apply Forall_insert. Qed.

(** ** The search loop *)

Lemma first_index_Some p t i r j :
  first_index p t i r = Some j ->
  (i <= j < i + r)%nat /\ p (entry_at t j) = true /\
  forall k, (i <= k < j)%nat -> p (entry_at t k) = false.
Proof.
  revert i. induction r as [|r IH]; intros i H; simpl in H; [discriminate|].
  destruct (p (entry_at t i)) eqn:E.
  - injection H as <-. split; [lia|]. split; [done|]. intros k Hk. lia.
  - apply IH in H as (Hr & Hp & Hk). split; [lia|]. split; [done|].
    intros k Hik. destruct (decide (k = i)) as [->|]; [done|]. apply Hk. lia.
Qed.

Lemma first_index_None p t i r :
  first_index p t i r = None ->
  forall k, (i <= k < i + r)%nat -> p (entry_at t k) = false.
Proof.
  revert i. induction r as [|r IH]; intros i H k Hk; simpl in H; [lia|].
  destruct (p (entry_at t i)) eqn:E; [discriminate|].
  destruct (decide (k = i)) as [->|]; [done|]. apply (IH _ H). lia.
Qed.

Lemma first_index_None_intro p t i r :
  (forall k, (i <= k < i + r)%nat -> p (entry_at t k) = false) ->
  first_index p t i r = None.
Proof.
  revert i. induction r as [|r IH]; intros i H; simpl; [done|].
  rewrite H by lia. apply IH. intros k Hk. apply H. lia.
Qed.

(** Two tests that agree on the scanned slots stop at the same slot. *)
Lemma first_index_ext p q t i r :
  (forall k, (i <= k < i + r)%nat -> p (entry_at t k) = q (entry_at t k)) ->
  first_index p t i r = first_index q t i r.
Proof.
  revert i. induction r as [|r IH]; intros i H; simpl; [done|].
  rewrite H by lia. destruct (q (entry_at t i)); [done|].
  apply IH. intros k Hk. apply H. lia.
Qed.

(** ** Garbage collection: what a round does *)

Lemma entry_at_cons_S e (t : list GLUSmemoryTable) i :
  entry_at (e :: t) (S i) = entry_at t i.
Proof. reflexivity. Qed.

Lemma count_valid_insert (t : list GLUSmemoryTable) i x :
  (i < List.length t)%nat ->
  (count_valid (<[i := x]> t) + Nat.b2n (valid (entry_at t i)) =
   count_valid t + Nat.b2n (valid x))%nat.
Proof.
  revert i. induction t as [|e t IH]; intros i Hi; simpl in Hi; [lia|].
  destruct i as [|i]; simpl.
  - unfold entry_at; simpl. destruct (valid e), (valid x); simpl; lia.
  - rewrite entry_at_cons_S. specialize (IH i ltac:(lia)). lia.
Qed.

Lemma count_valid_insert_same (t : list GLUSmemoryTable) i x :
  valid x = valid (entry_at t i) ->
  count_valid (<[i := x]> t) = count_valid t.
Proof.
  intros Hv. destruct (decide (i < List.length t)%nat) as [Hi|Hi].
  - pose proof (count_valid_insert t i x Hi) as H. rewrite Hv in H. lia.
  - by rewrite list_insert_ge by lia.
Qed.

Lemma count_valid_merge t i j :
  i <> j -> valid (entry_at t j) = true ->
  S (count_valid (merge t i j)) = count_valid t.
Proof.
  intros Hne Hv. unfold merge.
  pose proof (valid_in_table _ _ Hv) as Hj.
  rewrite entry_at_insert_ne by done.
  pose proof (count_valid_insert
    (<[i := set_length (entry_at t i)
             (to_size_t (length (entry_at t i) + length (entry_at t j)))]> t)
    j (set_valid (entry_at t j) false)) as H.
  rewrite length_insert in H. specialize (H Hj).
  rewrite entry_at_insert_ne in H by done. rewrite Hv in H. simpl in H.
  rewrite (count_valid_insert_same t i) in H by done. lia.
Qed.

Lemma gc_inner_cases rem i j t c t' c' :
  gc_inner rem i j t c = (t', c') ->
  (t' = t /\ c' = c /\ row_quiet t i j (j + rem)) \/
  (c' = true /\ (count_valid t' < count_valid t)%nat).
Proof.
  revert j t c. induction rem as [|r IH]; intros j t c H; simpl in H.
  - injection H as <- <-. left. split; [done|]. split; [done|].
    intros k Hk. lia.
  - destruct (Nat.eqb_spec j i) as [->|Hne].
    + apply IH in H as [(-> & -> & Hq)|Hm]; [left|by right].
      split; [done|]. split; [done|]. intros k Hk Hki. apply Hq; [lia|done].
    + fold (mergeable t i j) in H. fold (merge t i j) in H.
      destruct (mergeable t i j) eqn:Hm.
      * right. assert (valid (entry_at t j) = true) as Hv.
        { unfold mergeable in Hm.
          destruct (valid (entry_at t j)); [done|discriminate]. }
        pose proof (count_valid_merge t i j ltac:(done) Hv) as Hc.
        apply IH in H as [(-> & -> & _)|(-> & Hlt)]; split; try done; lia.
      * apply IH in H as [(-> & -> & Hq)|Hmm]; [left|by right].
        split; [done|]. split; [done|]. intros k Hk Hki.
        destruct (decide (k = j)) as [->|]; [done|]. apply Hq; [lia|done].
Qed.

Lemma gc_outer_cases rem i limit t c t' c' :
  gc_outer rem i limit t c = (t', c') ->
  (t' = t /\ c' = c /\ rows_quiet t i (i + rem) limit) \/
  (c' = true /\ (count_valid t' < count_valid t)%nat).
Proof.
  revert i t c. induction rem as [|r IH]; intros i t c H; simpl in H.
  - injection H as <- <-. left. split; [done|]. split; [done|].
    intros k Hk. lia.
  - destruct (valid (entry_at t i) && free (entry_at t i)) eqn:Hvf.
    + destruct (gc_inner limit i 0 t c) as [t1 c1] eqn:Hin.
      apply gc_inner_cases in Hin as [(-> & -> & Hq)|(-> & Hlt)].
      * apply IH in H as [(-> & -> & Hqs)|Hm]; [left|by right].
        split; [done|]. split; [done|]. intros k Hk Hkv.
        destruct (decide (k = i)) as [->|]; [done|]. apply Hqs; [lia|done].
      * right. apply IH in H as [(-> & -> & _)|(-> & Hlt')]; split; try done; lia.
    + apply IH in H as [(-> & -> & Hqs)|Hm]; [left|by right].
      split; [done|]. split; [done|]. intros k Hk Hkv.
      destruct (decide (k = i)) as [->|]; [congruence|]. apply Hqs; [lia|done].
Qed.

Lemma gc_pass_cases limit t t' c' :
  gc_pass limit t = (t', c') ->
  (t' = t /\ c' = false /\ rows_quiet t 0 limit limit) \/
  (c' = true /\ (count_valid t' < count_valid t)%nat).
Proof. unfold gc_pass. intros H. by apply gc_outer_cases in H. Qed.

(** The bound on the rounds is enough: each round that asks for another
    one has removed a valid entry. *)
Lemma gc_loop_terminates fuel limit t :
  (count_valid t < fuel)%nat -> exists t', gc_loop fuel limit t = Some t'.
Proof.
  revert t. induction fuel as [|f IH]; intros t Hc; [lia|]. simpl.
  destruct (gc_pass limit t) as [t1 c1] eqn:Hp.
  apply gc_pass_cases in Hp as [(-> & -> & _)|(-> & Hlt)].
  - by eexists.
  - apply IH. lia.
Qed.

(** More rounds than needed change nothing. *)
Lemma gc_loop_more_fuel fuel fuel' limit t t' :
  gc_loop fuel limit t = Some t' -> (fuel <= fuel')%nat ->
  gc_loop fuel' limit t = Some t'.
Proof.
  revert fuel' t. induction fuel as [|f IH]; intros f' t H Hle; [discriminate|].
  destruct f' as [|f']; [lia|]. simpl in *.
  destruct (gc_pass limit t) as [t1 [|]]; [|done]. apply IH; [done|lia].
Qed.

(** The loop ends on a table that a further round leaves alone. *)
Lemma gc_loop_stable fuel limit t t' :
  gc_loop fuel limit t = Some t' ->
  gc_pass limit t' = (t', false) /\ rows_quiet t' 0 limit limit.
Proof.
  revert t. induction fuel as [|f IH]; intros t H; [discriminate|]. simpl in H.
  destruct (gc_pass limit t) as [t1 c1] eqn:Hp.
  pose proof Hp as Hp'.
  apply gc_pass_cases in Hp' as [(-> & -> & Hq)|(-> & Hlt)].
  - injection H as <-. done.
  - by apply IH in H.
Qed.

Lemma glusGarbageCollect_result st :
  exists t, gc_loop (S (count_valid (g_memoryTable st))) (scan_limit st)
              (g_memoryTable st) = Some t /\
            glusGarbageCollect st = with_table st t.
Proof.
  destruct (gc_loop_terminates (S (count_valid (g_memoryTable st)))
              (scan_limit st) (g_memoryTable st)) as [t Ht]; [lia|].
  exists t. split; [done|]. unfold glusGarbageCollect. by rewrite Ht.
Qed.

(** Conversely, a round over a table in which nothing can be merged
    changes nothing and asks for no other round. *)
Lemma gc_inner_quiet rem i j t c :
  row_quiet t i j (j + rem) -> gc_inner rem i j t c = (t, c).
Proof.
  revert j. induction rem as [|r IH]; intros j Hq; simpl; [done|].
  destruct (Nat.eqb_spec j i) as [->|Hne].
  - apply IH. intros k Hk Hki. apply Hq; [lia|done].
  - fold (mergeable t i j). rewrite (Hq j) by (lia || done).
    apply IH. intros k Hk Hki. apply Hq; [lia|done].
Qed.

Lemma gc_outer_quiet rem i limit t c :
  rows_quiet t i (i + rem) limit -> gc_outer rem i limit t c = (t, c).
Proof.
  revert i. induction rem as [|r IH]; intros i Hq; simpl; [done|].
  destruct (valid (entry_at t i) && free (entry_at t i)) eqn:Hvf.
  - rewrite gc_inner_quiet by (apply Hq; [lia|done]).
    apply IH. intros k Hk. apply Hq. lia.
  - apply IH. intros k Hk. apply Hq. lia.
Qed.

Lemma glusGarbageCollect_quiet st :
  rows_quiet (g_memoryTable st) 0 (scan_limit st) (scan_limit st) ->
  glusGarbageCollect st = st.
Proof.
  intros Hq. unfold glusGarbageCollect. cbn [gc_loop]. unfold gc_pass.
  rewrite gc_outer_quiet by done. by destruct st.
Qed.

(** With at most one Free block among the scanned slots there is
    nothing to merge. *)
Lemma rows_quiet_one_free t limit m :
  (forall j, (j < limit)%nat -> j <> m -> free (entry_at t j) = false) ->
  rows_quiet t 0 limit limit.
Proof.
  intros Hone i Hi Hvf j Hj Hji. unfold mergeable.
  destruct (decide (j = m)) as [->|Hjm].
  - rewrite (Hone i) in Hvf by (lia || done).
    by rewrite andb_false_r in Hvf.
  - rewrite (Hone j) by (lia || done). by rewrite andb_false_r.
Qed.

(** ** The invariant of reachable tables *)

Lemma merge_length t i j : List.length (merge t i j) = List.length t.
Proof. unfold merge. by rewrite !length_insert. Qed.

Lemma merge_ok t i j :
  Forall entry_ok t -> mergeable t i j = true -> Forall entry_ok (merge t i j).
Proof.
  intros HF Hm. unfold merge, mergeable in *.
  pose proof (entry_at_ok t i HF) as Ha.
  pose proof (entry_at_ok t j HF) as Hb.
  apply andb_true_iff in Hm as [_ Hadj]. unfold adjacent in Hadj.
  apply Z.eqb_eq in Hadj.
  destruct Ha as (Ha1 & Ha2 & Ha3 & Ha4), Hb as (Hb1 & Hb2 & Hb3 & Hb4).
  apply Forall_insert_ok.
  - apply Forall_insert_ok; [done|]. unfold entry_ok; simpl.
    clear HF. zlia.
  - match goal with |- entry_ok (set_valid ?e _) =>
      assert (entry_ok e) as He end.
    { apply entry_at_ok. apply Forall_insert_ok; [done|].
      unfold entry_ok; simpl. clear HF. zlia. }
    exact He.
Qed.

Lemma gc_inner_inv rem i j t c :
  Forall entry_ok t ->
  Forall entry_ok (gc_inner rem i j t c).1 /\
  List.length (gc_inner rem i j t c).1 = List.length t.
Proof.
  revert j t c. induction rem as [|r IH]; intros j t c HF; simpl; [done|].
  destruct (Nat.eqb_spec j i) as [->|Hne]; [by apply IH|].
  fold (mergeable t i j). fold (merge t i j).
  destruct (mergeable t i j) eqn:Hm; [|by apply IH].
  destruct (IH (S j) (merge t i j) true (merge_ok _ _ _ HF Hm)) as [H1 H2].
  split; [done|]. by rewrite H2, merge_length.
Qed.

Lemma gc_outer_inv rem i limit t c :
  Forall entry_ok t ->
  Forall entry_ok (gc_outer rem i limit t c).1 /\
  List.length (gc_outer rem i limit t c).1 = List.length t.
Proof.
  revert i t c. induction rem as [|r IH]; intros i t c HF; simpl; [done|].
  destruct (valid (entry_at t i) && free (entry_at t i)); [|by apply IH].
  pose proof (gc_inner_inv limit i 0 t c HF) as [H1 H2].
  destruct (gc_inner limit i 0 t c) as [t1 c1]; simpl in *.
  destruct (IH (S i) t1 c1 H1) as [H3 H4]. split; [done|]. by rewrite H4.
Qed.

Lemma gc_loop_inv fuel limit t t' :
  gc_loop fuel limit t = Some t' -> Forall entry_ok t ->
  Forall entry_ok t' /\ List.length t' = List.length t.
Proof.
  revert t. induction fuel as [|f IH]; intros t H HF; [discriminate|].
  simpl in H. unfold gc_pass in H.
  pose proof (gc_outer_inv limit 0 limit t false HF) as [H1 H2].
  destruct (gc_outer limit 0 limit t false) as [t1 [|]]; simpl in *.
  - destruct (IH _ H H1) as [H3 H4]. split; [done|]. by rewrite H4.
  - by injection H as <-.
Qed.

Lemma glusGarbageCollect_inv st :
  table_inv st -> table_inv (glusGarbageCollect st).
Proof.
  intros (Hlen & Hcnt & HF).
  destruct (glusGarbageCollect_result st) as (t & Ht & ->).
  destruct (gc_loop_inv _ _ _ _ Ht HF) as [H1 H2].
  unfold table_inv; simpl. by rewrite H2.
Qed.

Lemma glusFree_inv p st : table_inv st -> table_inv (glusFree p st).
Proof.
  intros (Hlen & Hcnt & HF). unfold glusFree.
  destruct (p =? 0); [done|].
  destruct (first_index _ _ _ _) as [i|]; [|done].
  unfold table_inv; simpl. rewrite length_insert.
  split; [done|]. split; [done|]. apply Forall_insert_ok; [done|].
  apply (entry_at_ok _ i) in HF. exact HF.
Qed.

Lemma store_word_inv i v st : table_inv st -> table_inv (store_word i v st).
Proof. intros H. exact H. Qed.

Lemma initial_state_inv arena : table_inv (initial_state arena).
Proof.
  unfold table_inv, initial_state, initial_table.
  cbn [g_memoryTable g_memoryTableEntries].
  split; [reflexivity|]. split; [unfold GLUS_MEMORY_TABLE_ENTRIES; lia|].
  constructor.
  - unfold entry_ok; simpl. zlia.
  - apply Forall_replicate. unfold entry_ok; simpl. zlia.
Qed.

(** ** Allocation: rounding *)

(** Either the rounding of the source wraps around, which the test
    [allocatedLength < size] detects, or it yields [rounded_size]. *)
Lemma allocated_length_cases size :
  0 <= size < SIZE_MODULUS ->
  ((allocated_length size <? size) = true /\ SIZE_MODULUS <= rounded_size size) \/
  ((allocated_length size <? size) = false /\
   allocated_length size = rounded_size size /\
   rounded_size size < SIZE_MODULUS).
Proof.
  intros Hs. unfold allocated_length, rounded_size.
  destruct (Z.eqb_spec (size mod 4) 0) as [Hm|Hm].
  - right. split; [apply Z.ltb_ge; lia|]. zlia.
  - destruct (Z_lt_dec (size + 3) SIZE_MODULUS) as [Hlt|Hge].
    + right. split; [apply Z.ltb_ge; zlia|]. zlia.
    + left. split; [apply Z.ltb_lt; zlia|]. zlia.
Qed.

Lemma rounded_size_bounds size :
  size <= rounded_size size < size + 4 /\ rounded_size size mod 4 = 0.
Proof. unfold rounded_size. zlia. Qed.

(** On a whole number of words, holding the size and holding the rounded
    size are the same. *)
Lemma fits_rounded_iff size len :
  len mod 4 = 0 -> (size <=? len) = (rounded_size size <=? len).
Proof.
  intros Hl. pose proof (rounded_size_bounds size) as [Hb Hm].
  destruct (Z.leb_spec size len), (Z.leb_spec (rounded_size size) len);
    try done; zlia.
Qed.

(** ** Allocation: the state after a grant *)

Lemma other_index_ne st i :
  valid (entry_at (g_memoryTable st) i) = true -> other_index st i <> i.
Proof.
  intros Hv. unfold other_index, glusFindMemoryTableEntry.
  destruct (first_index _ _ _ _) as [o|] eqn:E; [|lia].
  apply first_index_Some in E as (_ & Ho & _). intros ->.
  rewrite Hv in Ho. discriminate.
Qed.

Lemma grant_eq size al i st :
  valid (entry_at (g_memoryTable st) i) = true ->
  let e := entry_at (g_memoryTable st) i in
  let o := other_index st i in
  grant size al i st =
    if (GLUS_MEMORY_TABLE_ENTRIES <=? o)%nat then
      (pointer e,
       with_table st
         (<[i := set_length (set_free e false) (length e)]> (g_memoryTable st)))
    else
      (pointer e,
       {| g_memory := g_memory st;
          g_memoryTable :=
            <[i := set_length (set_free e false) al]>
              (<[o := remainder_entry st e al]> (g_memoryTable st));
          g_memoryTableEntries :=
            if (o =? g_memoryTableEntries st)%nat
            then S (g_memoryTableEntries st) else g_memoryTableEntries st |}).
Proof.
  intros Hv e o. pose proof (other_index_ne st i Hv) as Hne.
  unfold grant, glusInitMemoryTableEntry. fold e o.
  destruct (GLUS_MEMORY_TABLE_ENTRIES <=? o)%nat; [done|].
  cbn [g_memoryTable with_table g_memory g_memoryTableEntries].
  rewrite entry_at_insert_ne by done. done.
Qed.

Lemma fits_true size e :
  fits size e = true -> valid e = true /\ free e = true /\ size <= length e.
Proof.
  unfold fits. intros H. apply andb_true_iff in H as [H H3].
  apply andb_true_iff in H as [H1 H2]. apply Z.leb_le in H3. done.
Qed.

Lemma grant_inv size i st :
  table_inv st -> 0 <= size ->
  fits size (entry_at (g_memoryTable st) i) = true ->
  allocated_length size = rounded_size size ->
  table_inv (grant size (allocated_length size) i st).2.
Proof.
  intros (Hlen & Hcnt & HF) Hs Hfit Hal.
  apply fits_true in Hfit as (Hv & Hf & Hle).
  rewrite grant_eq by done. rewrite Hal.
  pose proof (entry_at_ok _ i HF) as (He1 & He2 & He3 & He4).
  pose proof (rounded_size_bounds size) as [Hb Hm].
  set (e := entry_at (g_memoryTable st) i) in *.
  assert (rounded_size size <= length e) as Hrl by (clear HF; zlia).
  destruct (Nat.leb_spec GLUS_MEMORY_TABLE_ENTRIES (other_index st i)) as [Ho|Ho].
  - unfold table_inv; simpl. rewrite length_insert.
    split; [done|]. split; [done|]. apply Forall_insert_ok; [done|].
    unfold entry_ok; simpl. done.
  - unfold table_inv; simpl. rewrite !length_insert.
    split; [done|]. split.
    { destruct (Nat.eqb_spec (other_index st i) (g_memoryTableEntries st)); lia. }
    apply Forall_insert_ok; [apply Forall_insert_ok; [done|]|].
    + unfold entry_ok; simpl. clear HF. zlia.
    + unfold entry_ok; simpl. clear HF. zlia.
Qed.

Lemma glusInternalMalloc_inv size st :
  table_inv st -> 0 <= size < SIZE_MODULUS ->
  table_inv (glusInternalMalloc size st).2.
Proof.
  intros Hinv Hs. unfold glusInternalMalloc.
  destruct (allocated_length_cases size Hs) as [[-> _]|(-> & Hal & _)]; [done|].
  destruct (first_index _ _ _ _) as [i|] eqn:E; [|done].
  apply first_index_Some in E as (_ & Hfit & _).
  apply grant_inv; [done|lia|done|done].
Qed.

Lemma glusMalloc_inv size st :
  table_inv st -> 0 <= size < SIZE_MODULUS -> table_inv (glusMalloc size st).2.
Proof.
  intros Hinv Hs. unfold glusMalloc. destruct (size =? 0); [done|].
  pose proof (glusInternalMalloc_inv size st Hinv Hs) as H1.
  destruct (glusInternalMalloc size st) as [p st1]; simpl in H1.
  destruct (p =? 0); [|done].
  apply glusInternalMalloc_inv; [|done]. by apply glusGarbageCollect_inv.
Qed.

(** The word that a split reads for the pointer of the remainder lies
    inside the arena. *)
Lemma remainder_start_in_arena size i st :
  table_inv st -> 0 <= size ->
  fits size (entry_at (g_memoryTable st) i) = true ->
  allocated_length size = rounded_size size ->
  0 <= startIndex (remainder_entry st (entry_at (g_memoryTable st) i)
                     (allocated_length size)) < GLUS_MEMORY_SIZE.
Proof.
  intros (_ & _ & HF) Hs Hfit Hal.
  apply fits_true in Hfit as (_ & _ & Hle). rewrite Hal.
  pose proof (entry_at_ok _ i HF) as (He1 & He2 & He3 & He4).
  pose proof (rounded_size_bounds size) as [Hb Hm].
  cbn [startIndex remainder_entry]. clear HF. zlia.
Qed.

(** Every state of a run satisfies the invariant. *)
Lemma reachable_inv arena st : reachable arena st -> table_inv st.
Proof.
  induction 1 as [|st size _ IH Hs|st p _ IH|st i v _ IH Hi Hv].
  - apply initial_state_inv.
  - by apply glusMalloc_inv.
  - by apply glusFree_inv.
  - by apply store_word_inv.
Qed.

Lemma entry_at_insert (t : list GLUSmemoryTable) i j x :
  entry_at (<[i := x]> t) j =
    if decide (i = j /\ (i < List.length t)%nat) then x else entry_at t j.
Proof.
  destruct (decide _) as [[-> Hi]|Hn].
  - by apply entry_at_insert_eq.
  - destruct (decide (i = j)) as [->|Hne].
    + by rewrite list_insert_ge by lia.
    + by apply entry_at_insert_ne.
Qed.

Lemma state_of_Free e :
  state_of e = Free <-> valid e = true /\ free e = true.
Proof. unfold state_of. destruct (valid e), (free e); intuition congruence. Qed.

Lemma state_of_Allocated e :
  state_of e = Allocated <-> valid e = true /\ free e = false.
Proof. unfold state_of. destruct (valid e), (free e); intuition congruence. Qed.

Lemma state_of_Unused e : state_of e = Unused <-> valid e = false.
Proof. unfold state_of. destruct (valid e), (free e); split; intros; done. Qed.

(** The test of the source finds every adjacency of stored values:
    a sum that equals a stored [size_t] did not wrap around. *)
Lemma adjacent_plain a b :
  0 <= startIndex b < SIZE_MODULUS ->
  startIndex a + length a / 4 = startIndex b -> adjacent a b = true.
Proof.
  intros Hb Heq. unfold adjacent. rewrite Heq. apply Z.eqb_eq. zlia.
Qed.

(** The three facts about a grant that the claims use: the pointer
    returned, the granted slot afterwards, and the slots left alone. *)
Lemma grant_pointer size al i st :
  valid (entry_at (g_memoryTable st) i) = true ->
  (grant size al i st).1 = pointer (entry_at (g_memoryTable st) i).
Proof.
  intros Hv. rewrite grant_eq by done.
  by destruct (GLUS_MEMORY_TABLE_ENTRIES <=? other_index st i)%nat.
Qed.

Lemma grant_entry size al i st :
  valid (entry_at (g_memoryTable st) i) = true ->
  entry_at (g_memoryTable (grant size al i st).2) i =
    set_length (set_free (entry_at (g_memoryTable st) i) false)
      (if (GLUS_MEMORY_TABLE_ENTRIES <=? other_index st i)%nat
       then length (entry_at (g_memoryTable st) i) else al).
Proof.
  intros Hv. pose proof (valid_in_table _ _ Hv) as Hi.
  rewrite grant_eq by done.
  destruct (GLUS_MEMORY_TABLE_ENTRIES <=? other_index st i)%nat;
    cbn [snd with_table g_memoryTable];
    rewrite entry_at_insert_eq; rewrite ?length_insert; done.
Qed.

Lemma grant_other size al i j st :
  valid (entry_at (g_memoryTable st) i) = true ->
  j <> i -> j <> other_index st i ->
  entry_at (g_memoryTable (grant size al i st).2) j =
    entry_at (g_memoryTable st) j.
Proof.
  intros Hv Hji Hjo. rewrite grant_eq by done.
  destruct (GLUS_MEMORY_TABLE_ENTRIES <=? other_index st i)%nat;
    cbn [snd with_table g_memoryTable];
    rewrite !entry_at_insert_ne; done.
Qed.

(** The slot the remainder goes to is Free afterwards, or is left alone
    when the table has no room for it. *)
Lemma grant_remainder size al i st :
  valid (entry_at (g_memoryTable st) i) = true ->
  let o := other_index st i in
  entry_at (g_memoryTable (grant size al i st).2) o =
    if decide ((o < GLUS_MEMORY_TABLE_ENTRIES)%nat /\
               (o < List.length (g_memoryTable st))%nat)
    then remainder_entry st (entry_at (g_memoryTable st) i) al
    else entry_at (g_memoryTable st) o.
Proof.
  intros Hv o. pose proof (other_index_ne st i Hv) as Hne. fold o in Hne.
  rewrite grant_eq by done. fold o.
  destruct (Nat.leb_spec GLUS_MEMORY_TABLE_ENTRIES o) as [Ho|Ho];
    cbn [snd with_table g_memoryTable].
  - rewrite entry_at_insert_ne by done.
    destruct (decide _) as [[? ?]|_]; [lia|done].
  - rewrite entry_at_insert_ne by done. rewrite entry_at_insert.
    destruct (decide _) as [[_ Hl]|Hn], (decide _) as [[_ Hl']|Hn'];
      try done; exfalso; lia.
Qed.

Lemma first_index_least p t r i :
  (i < r)%nat -> p (entry_at t i) = true ->
  (forall k, (k < i)%nat -> p (entry_at t k) = false) ->
  first_index p t 0 r = Some i.
Proof.
  intros Hi Hp Hk. destruct (first_index p t 0 r) as [j|] eqn:E.
  - apply first_index_Some in E as (Hj & Hpj & Hlt). f_equal.
    destruct (Nat.lt_trichotomy j i) as [Hji|[->|Hij]]; [|done|].
    + rewrite Hk in Hpj by done. discriminate.
    + rewrite Hlt in Hp by lia. discriminate.
  - pose proof (first_index_None _ _ _ _ E i ltac:(lia)) as Hn.
    rewrite Hn in Hp. discriminate.
Qed.

(** On the entries of a reachable table the test of the source and the
    test of the specification agree. *)
Lemma fits_fits_rounded size e :
  entry_ok e -> fits size e = fits_rounded size e.
Proof.
  intros (_ & _ & Hm & _). unfold fits, fits_rounded, state_of.
  destruct (valid e), (free e); try done. simpl. by apply fits_rounded_iff.
Qed.

(** * The claims *)

(** C8. [malloc(0)] returns the null pointer and leaves the whole state,
    hence every entry of the block table and the counter of activated
    slots, as it was. *)
Theorem malloc_zero_no_change (st : state) : glusMalloc 0 st = (0, st).
Proof. reflexivity. Qed.

(** C10. No operation writes to the arena: after [glusMalloc], after the
    [glusInternalMalloc] and the [glusGarbageCollect] it runs, and after
    [glusFree], [g_memory] is the function it was. *)
Theorem arena_never_written (st : state) (size p : Z) :
  g_memory (glusInternalMalloc size st).2 = g_memory st /\
  g_memory (glusGarbageCollect st) = g_memory st /\
  g_memory (glusMalloc size st).2 = g_memory st /\
  g_memory (glusFree p st) = g_memory st.
Proof.
  assert (forall s st0, g_memory (glusInternalMalloc s st0).2 = g_memory st0) as HI.
  { intros s st0. unfold glusInternalMalloc.
    destruct (allocated_length s <? s); [done|].
    destruct (first_index _ _ _ _) as [i|]; [|done].
    unfold grant, glusInitMemoryTableEntry.
    destruct (GLUS_MEMORY_TABLE_ENTRIES <=? other_index st0 i)%nat; done. }
  assert (forall st0, g_memory (glusGarbageCollect st0) = g_memory st0) as HG.
  { intros st0. unfold glusGarbageCollect. by destruct (gc_loop _ _ _). }
  split; [apply HI|]. split; [apply HG|]. split.
  - unfold glusMalloc. destruct (size =? 0); [done|].
    pose proof (HI size st) as H1.
    destruct (glusInternalMalloc size st) as [q st1]; simpl in H1.
    destruct (q =? 0); [|done]. by rewrite HI, HG.
  - unfold glusFree. destruct (p =? 0); [done|].
    by destruct (first_index _ _ _ _).
Qed.

(** Release of a pointer that no block stores. [free(null)] does
    nothing. [free] of a non-null pointer that is the stored pointer of
    no Free or Allocated block among the scanned slots leaves the state,
    start, length and pointer of every slot, the counter and the arena
    unchanged. When the pointer is the stored pointer of no scanned slot
    at all, the whole state is literally unchanged. *)
Theorem free_unmatched_no_change (st : state) (p : Z) :
  (p = 0 \/
   forall i, (i < scan_limit st)%nat ->
     state_of (entry_at (g_memoryTable st) i) <> Unused ->
     pointer (entry_at (g_memoryTable st) i) <> p) ->
  g_memory (glusFree p st) = g_memory st /\
  g_memoryTableEntries (glusFree p st) = g_memoryTableEntries st /\
  List.length (g_memoryTable (glusFree p st)) = List.length (g_memoryTable st) /\
  (forall i,
     state_of (entry_at (g_memoryTable (glusFree p st)) i) =
       state_of (entry_at (g_memoryTable st) i) /\
     startIndex (entry_at (g_memoryTable (glusFree p st)) i) =
       startIndex (entry_at (g_memoryTable st) i) /\
     length (entry_at (g_memoryTable (glusFree p st)) i) =
       length (entry_at (g_memoryTable st) i) /\
     pointer (entry_at (g_memoryTable (glusFree p st)) i) =
       pointer (entry_at (g_memoryTable st) i)) /\
  (p = 0 \/
   (forall i, (i < scan_limit st)%nat ->
      pointer (entry_at (g_memoryTable st) i) <> p) ->
   glusFree p st = st).
Proof.
  intros Hp. unfold glusFree.
  destruct (Z.eqb_spec p 0) as [->|Hnz]; [done|].
  destruct Hp as [->|Hp]; [done|].
  destruct (first_index _ _ _ _) as [k|] eqn:E; [|done].
  apply first_index_Some in E as (Hk & Hptr & _). apply Z.eqb_eq in Hptr.
  assert (valid (entry_at (g_memoryTable st) k) = false) as Hv.
  { apply state_of_Unused.
    destruct (state_of (entry_at (g_memoryTable st) k)) eqn:Es; [done| |];
      exfalso; apply (Hp k); try lia; try done; by rewrite Es. }
  cbn [with_table g_memory g_memoryTable g_memoryTableEntries].
  rewrite length_insert. split; [done|]. split; [done|]. split; [done|]. split.
  - intros i. rewrite entry_at_insert.
    destruct (decide _) as [[-> _]|_]; [|done].
    unfold state_of; simpl. by rewrite Hv.
  - intros [->|Hall]; [done|]. exfalso. apply (Hall k); [lia|done].
Qed.

(** The theorem at the initial state and the interior pointer
    [arena + 4]: nothing changes. *)
Lemma free_unmatched_witness :
  glusFree 4100 (initial_state 4096) = initial_state 4096.
Proof.
  assert (forall i, (i < scan_limit (initial_state 4096))%nat ->
            pointer (entry_at (g_memoryTable (initial_state 4096)) i) <> 4100)
    as Hno.
  { intros i Hi. assert (i = 0%nat) as -> by (vm_compute in Hi; lia).
    vm_compute. discriminate. }
  destruct (free_unmatched_no_change (initial_state 4096) 4100) as (_ & _ & _ & _ & H).
  - right. intros i Hi _. by apply Hno.
  - apply H. right. exact Hno.
Defined.

(** C7. [glusGarbageCollect] returns (its loop ends within the bound on
    its rounds), and the state it returns is a fixed point: no two
    distinct Free blocks among the scanned slots are address-adjacent,
    neither by the test of the source nor, for stored [size_t] values, by
    plain arithmetic, and collecting again changes nothing. *)
Theorem collect_fixed_point (st : state) :
  (exists t,
     gc_loop (S (count_valid (g_memoryTable st))) (scan_limit st)
       (g_memoryTable st) = Some t /\
     glusGarbageCollect st = with_table st t) /\
  (forall i j, (i < scan_limit st)%nat -> (j < scan_limit st)%nat -> i <> j ->
     state_of (entry_at (g_memoryTable (glusGarbageCollect st)) i) = Free ->
     state_of (entry_at (g_memoryTable (glusGarbageCollect st)) j) = Free ->
     adjacent (entry_at (g_memoryTable (glusGarbageCollect st)) i)
              (entry_at (g_memoryTable (glusGarbageCollect st)) j) = false /\
     (0 <= startIndex (entry_at (g_memoryTable (glusGarbageCollect st)) j)
        < SIZE_MODULUS ->
      startIndex (entry_at (g_memoryTable (glusGarbageCollect st)) i)
      + length (entry_at (g_memoryTable (glusGarbageCollect st)) i) / WORD
      <> startIndex (entry_at (g_memoryTable (glusGarbageCollect st)) j))) /\
  glusGarbageCollect (glusGarbageCollect st) = glusGarbageCollect st.
Proof.
  destruct (glusGarbageCollect_result st) as (t & Ht & Hst).
  apply gc_loop_stable in Ht as Hstable. destruct Hstable as [Hpass Hq].
  split; [by exists t|]. rewrite Hst.
  cbn [with_table g_memoryTable]. split.
  - intros i j Hi Hj Hne Hfi Hfj.
    apply state_of_Free in Hfi as [Hvi Hfi]. apply state_of_Free in Hfj as [Hvj Hfj].
    assert (adjacent (entry_at t i) (entry_at t j) = false) as Hadj.
    { specialize (Hq i ltac:(lia)). rewrite Hvi, Hfi in Hq.
      specialize (Hq eq_refl j ltac:(lia) ltac:(done)).
      unfold mergeable in Hq. by rewrite Hvj, Hfj in Hq. }
    split; [done|]. intros Hb Heq. unfold WORD in Heq.
    by rewrite (adjacent_plain _ _ Hb Heq) in Hadj.
  - unfold glusGarbageCollect at 1.
    cbn [with_table g_memoryTable g_memoryTableEntries g_memory].
    change (scan_limit (with_table st t)) with (scan_limit st).
    cbn [gc_loop]. by rewrite Hpass.
Qed.

(** C3. In every state of a run, [glusInternalMalloc] grants the first
    slot in table order that is Free and whose length is at least the
    requested size rounded up to a multiple of the word size: it returns
    that slot's pointer and leaves the slot Allocated with at least the
    rounded size; when no scanned slot passes this test it returns null
    and changes nothing. *)
Theorem first_fit_on_rounded_size (arena : Z) (st : state) (size : Z) :
  reachable arena st -> 0 <= size < SIZE_MODULUS ->
  (forall i, (i < scan_limit st)%nat ->
     state_of (entry_at (g_memoryTable st) i) = Free ->
     rounded_size size <= length (entry_at (g_memoryTable st) i) ->
     (forall k, (k < i)%nat ->
        ~ (state_of (entry_at (g_memoryTable st) k) = Free /\
           rounded_size size <= length (entry_at (g_memoryTable st) k))) ->
     (glusInternalMalloc size st).1 = pointer (entry_at (g_memoryTable st) i) /\
     state_of (entry_at (g_memoryTable (glusInternalMalloc size st).2) i)
       = Allocated /\
     rounded_size size
       <= length (entry_at (g_memoryTable (glusInternalMalloc size st).2) i)) /\
  ((forall i, (i < scan_limit st)%nat ->
      ~ (state_of (entry_at (g_memoryTable st) i) = Free /\
         rounded_size size <= length (entry_at (g_memoryTable st) i))) ->
   glusInternalMalloc size st = (0, st)).
Proof.
  intros Hreach Hs. apply reachable_inv in Hreach as (Hlen & Hcnt & HF).
  assert (forall k, fits size (entry_at (g_memoryTable st) k) =
                    fits_rounded size (entry_at (g_memoryTable st) k)) as Hagree.
  { intros k. apply fits_fits_rounded. by apply entry_at_ok. }
  assert (forall k, fits_rounded size (entry_at (g_memoryTable st) k) = true <->
            state_of (entry_at (g_memoryTable st) k) = Free /\
            rounded_size size <= length (entry_at (g_memoryTable st) k)) as Hspec.
  { intros k. unfold fits_rounded.
    destruct (state_of (entry_at (g_memoryTable st) k));
      rewrite ?Z.leb_le; intuition congruence. }
  unfold glusInternalMalloc. split.
  - intros i Hi Hfree Hlen_i Hleast.
    pose proof (entry_at_ok _ i HF) as (He1 & He2 & He3 & He4).
    destruct (allocated_length_cases size Hs) as [[_ Hov]|(-> & Hal & _)];
      [clear - Hov He1 He4 Hlen_i; zlia|].
    rewrite (first_index_least _ _ _ i Hi).
    + apply state_of_Free in Hfree as [Hv Hf].
      rewrite grant_pointer, grant_entry by done. split; [done|]. split.
      * apply state_of_Allocated. by simpl.
      * cbn [length set_length]. rewrite Hal.
        destruct (GLUS_MEMORY_TABLE_ENTRIES <=? other_index st i)%nat; lia.
    + rewrite Hagree. by apply Hspec.
    + intros k Hk. rewrite Hagree.
      destruct (fits_rounded size (entry_at (g_memoryTable st) k)) eqn:E; [|done].
      apply Hspec in E. by destruct (Hleast k Hk).
  - intros Hnone.
    destruct (allocated_length size <? size); [done|].
    rewrite first_index_None_intro; [done|].
    intros k Hk. rewrite Hagree.
    destruct (fits_rounded size (entry_at (g_memoryTable st) k)) eqn:E; [|done].
    apply Hspec in E. destruct (Hnone k ltac:(lia) E).
Qed.

(** The theorem at the initial state and a request of 10 bytes: slot 0
    is granted and tracks at least the 12 bytes of the rounded size. *)
Lemma first_fit_on_rounded_size_witness :
  (glusInternalMalloc 10 (initial_state 4096)).1 = 4096 /\
  state_of (entry_at (g_memoryTable (glusInternalMalloc 10 (initial_state 4096)).2) 0)
    = Allocated /\
  rounded_size 10
    <= length (entry_at (g_memoryTable (glusInternalMalloc 10 (initial_state 4096)).2) 0).
Proof.
  destruct (first_fit_on_rounded_size 4096 (initial_state 4096) 10) as [H _].
  - apply reach_init.
  - unfold SIZE_MODULUS. lia.
  - apply (H 0%nat).
    + vm_compute. lia.
    + reflexivity.
    + vm_compute. discriminate.
    + intros k Hk. lia.
Defined.

Lemma two_free_blocks_reachable : reachable 4096 two_free_blocks_state.
Proof.
  apply reach_free, reach_malloc; [apply reach_init|].
  unfold SIZE_MODULUS. lia.
Qed.

(** C9, as stated, fails for [glusMalloc]: a request whose rounding
    overflows returns null, but on the way [glusMalloc] has run the
    collector, which merged the two Free blocks of this state. *)
Lemma overflow_malloc_changes_state :
  reachable 4096 two_free_blocks_state /\
  0 <= 2 ^ 64 - 1 < SIZE_MODULUS /\
  SIZE_MODULUS <= rounded_size (2 ^ 64 - 1) /\
  (glusMalloc (2 ^ 64 - 1) two_free_blocks_state).1 = 0 /\
  length (entry_at (g_memoryTable two_free_blocks_state) 0) = 8 /\
  length (entry_at
            (g_memoryTable (glusMalloc (2 ^ 64 - 1) two_free_blocks_state).2) 0)
    = GLUS_MEMORY_SIZE /\
  (glusMalloc (2 ^ 64 - 1) two_free_blocks_state).2 <> two_free_blocks_state.
Proof.
  split; [apply two_free_blocks_reachable|].
  split; [unfold SIZE_MODULUS; lia|]. split; [vm_compute; discriminate|].
  split; [vm_compute; reflexivity|]. split; [vm_compute; reflexivity|].
  split; [vm_compute; reflexivity|].
  intros Heq.
  apply (f_equal (fun s => length (entry_at (g_memoryTable s) 0))) in Heq.
  vm_compute in Heq. discriminate.
Qed.

(** C9, amended. For every requested size: when rounding up to the next
    multiple of the word size fits the size type, [glusInternalMalloc]
    works with exactly that rounded size, and the slot it grants is left
    Allocated with a length that is never less than the requested size;
    when the rounding overflows, [glusInternalMalloc] returns null and
    changes nothing, and [glusMalloc] returns null after the one collector
    run it makes on a null result, which is its only effect. *)
Theorem rounding_and_overflow (st : state) (size : Z) :
  0 <= size < SIZE_MODULUS ->
  (rounded_size size < SIZE_MODULUS ->
   allocated_length size = rounded_size size /\
   size <= rounded_size size < size + WORD /\ rounded_size size mod WORD = 0 /\
   forall i,
     first_index (fits size) (g_memoryTable st) 0 (scan_limit st) = Some i ->
     state_of (entry_at (g_memoryTable (glusInternalMalloc size st).2) i)
       = Allocated /\
     size <= length (entry_at (g_memoryTable (glusInternalMalloc size st).2) i)) /\
  (SIZE_MODULUS <= rounded_size size ->
   glusInternalMalloc size st = (0, st) /\
   glusMalloc size st = (0, glusGarbageCollect st)).
Proof.
  intros Hs. pose proof (rounded_size_bounds size) as [Hb Hm].
  destruct (allocated_length_cases size Hs) as [[Hlt Hov]|(Hlt & Hal & Hno)].
  - split; [lia|]. intros _.
    assert (forall s, glusInternalMalloc size s = (0, s)) as Hnull.
    { intros s. unfold glusInternalMalloc. by rewrite Hlt. }
    split; [apply Hnull|]. unfold glusMalloc.
    destruct (Z.eqb_spec size 0) as [->|_]; [vm_compute in Hov; done|].
    rewrite Hnull. simpl. apply Hnull.
  - split; [|lia]. intros _. split; [done|]. split; [done|]. split; [done|].
    intros i Hi. unfold glusInternalMalloc. rewrite Hlt, Hi.
    apply first_index_Some in Hi as (_ & Hfit & _).
    apply fits_true in Hfit as (Hv & Hf & Hle).
    rewrite grant_entry by done. split.
    + apply state_of_Allocated. by simpl.
    + cbn [length set_length].
      destruct (GLUS_MEMORY_TABLE_ENTRIES <=? other_index st i)%nat; lia.
Qed.

(** The theorem at [two_free_blocks_state] and the largest size. *)
Lemma rounding_and_overflow_witness :
  glusInternalMalloc (2 ^ 64 - 1) two_free_blocks_state
    = (0, two_free_blocks_state) /\
  glusMalloc (2 ^ 64 - 1) two_free_blocks_state
    = (0, glusGarbageCollect two_free_blocks_state).
Proof.
  apply (rounding_and_overflow two_free_blocks_state (2 ^ 64 - 1)).
  - unfold SIZE_MODULUS. lia.
  - vm_compute. discriminate.
Defined.

Lemma fragmented_reachable : reachable 4096 fragmented_state.
Proof.
  apply reach_free, reach_malloc; [apply reach_malloc; [apply reach_init|]|];
    unfold SIZE_MODULUS; lia.
Qed.

(** C1, as stated, fails: the request below is positive and not larger
    than the total free capacity, which is spread over the Free blocks of
    8 and of 4194280 bytes in slots 0 and 3 with Allocated blocks between
    them; no single block holds it, collecting merges nothing, and
    [glusMalloc] returns null. *)
Lemma malloc_null_within_free_capacity :
  reachable 4096 fragmented_state /\
  map state_of (take 4 (g_memoryTable fragmented_state))
    = [Free; Allocated; Allocated; Free] /\
  scan_limit fragmented_state = 4%nat /\
  total_free fragmented_state = 4194288 /\
  0 < 4194288 <= total_free fragmented_state /\
  (glusMalloc 4194288 fragmented_state).1 = 0.
Proof.
  split; [apply fragmented_reachable|].
  split; [vm_compute; reflexivity|]. split; [vm_compute; reflexivity|].
  split; [vm_compute; reflexivity|]. split; [vm_compute; split; [done|discriminate]|].
  vm_compute; reflexivity.
Qed.

(** The table after a grant without retry. In every state of a run,
    for every size [s > 0] held by a single Free block, let slot [i] be
    the first such in table order and let its stored pointer be non-null.
    Then [glusMalloc s] returns that stored pointer; slot [i] is Allocated
    afterwards, starts where it started and tracks at least [s] and at
    most its former length; every other slot that is Allocated afterwards
    is an entry that was there before, unchanged. *)
Theorem malloc_grants_first_fit (arena : Z) (st : state) (size : Z) (i : nat) :
  reachable arena st -> 0 < size < SIZE_MODULUS ->
  (i < scan_limit st)%nat ->
  state_of (entry_at (g_memoryTable st) i) = Free ->
  size <= length (entry_at (g_memoryTable st) i) ->
  (forall k, (k < i)%nat ->
     ~ (state_of (entry_at (g_memoryTable st) k) = Free /\
        size <= length (entry_at (g_memoryTable st) k))) ->
  pointer (entry_at (g_memoryTable st) i) <> 0 ->
  (glusMalloc size st).1 = pointer (entry_at (g_memoryTable st) i) /\
  (glusMalloc size st).1 <> 0 /\
  state_of (entry_at (g_memoryTable (glusMalloc size st).2) i) = Allocated /\
  startIndex (entry_at (g_memoryTable (glusMalloc size st).2) i)
    = startIndex (entry_at (g_memoryTable st) i) /\
  size <= length (entry_at (g_memoryTable (glusMalloc size st).2) i)
       <= length (entry_at (g_memoryTable st) i) /\
  (forall j, j <> i ->
     state_of (entry_at (g_memoryTable (glusMalloc size st).2) j) = Allocated ->
     entry_at (g_memoryTable (glusMalloc size st).2) j
       = entry_at (g_memoryTable st) j) /\
  ((forall j, j <> i ->
      state_of (entry_at (g_memoryTable st) j) = Allocated ->
      ~ byte_range_overlap (entry_at (g_memoryTable st) i)
                           (entry_at (g_memoryTable st) j)) ->
   forall j, j <> i ->
     state_of (entry_at (g_memoryTable (glusMalloc size st).2) j) = Allocated ->
     ~ byte_range_overlap (entry_at (g_memoryTable (glusMalloc size st).2) i)
                          (entry_at (g_memoryTable (glusMalloc size st).2) j)).
Proof.
  intros Hreach Hs Hi Hfree Hle Hleast Hptr.
  apply reachable_inv in Hreach as (Hlen & Hcnt & HF).
  pose proof (entry_at_ok _ i HF) as (He1 & He2 & He3 & He4).
  pose proof (rounded_size_bounds size) as [Hb Hm].
  apply state_of_Free in Hfree as [Hv Hf].
  set (e := entry_at (g_memoryTable st) i) in *.
  assert (rounded_size size <= length e) as Hrl by (clear - He3 Hle Hb Hm; zlia).
  destruct (allocated_length_cases size ltac:(lia)) as [[_ Hov]|(Hlt & Hal & _)];
    [clear - Hov Hrl He1 He4; zlia|].
  assert (glusInternalMalloc size st = grant size (rounded_size size) i st) as Hint.
  { unfold glusInternalMalloc. rewrite Hlt, Hal.
    rewrite (first_index_least _ _ _ i Hi); [done| |].
    - unfold fits. fold e. rewrite Hv, Hf. simpl. by apply Z.leb_le.
    - intros k Hk. destruct (fits size (entry_at (g_memoryTable st) k)) eqn:E; [|done].
      apply fits_true in E as (Hvk & Hfk & Hlk).
      destruct (Hleast k Hk). split; [by apply state_of_Free|done]. }
  assert (glusMalloc size st = grant size (rounded_size size) i st) as Hm'.
  { unfold glusMalloc. destruct (Z.eqb_spec size 0) as [?|_]; [lia|].
    rewrite Hint. pose proof (grant_pointer size (rounded_size size) i st Hv) as Hp.
    destruct (grant size (rounded_size size) i st) as [p st1]; simpl in Hp.
    destruct (Z.eqb_spec p 0) as [Hz|_]; [|done]. fold e in Hp. congruence. }
  rewrite Hm'. rewrite grant_pointer, grant_entry by done. fold e.
  assert (forall j, j <> i ->
            state_of (entry_at (g_memoryTable (grant size (rounded_size size) i st).2) j)
              = Allocated ->
            entry_at (g_memoryTable (grant size (rounded_size size) i st).2) j
              = entry_at (g_memoryTable st) j) as Hsame.
  { intros j Hji Hj. destruct (decide (j = other_index st i)) as [->|Hjo].
    - revert Hj. rewrite grant_remainder by done.
      destruct (decide _); [|done]. intros Hj. by vm_compute in Hj.
    - by apply grant_other. }
  split; [done|]. split; [done|]. split; [by apply state_of_Allocated|].
  split; [done|]. split.
  { cbn [length set_length].
    destruct (GLUS_MEMORY_TABLE_ENTRIES <=? other_index st i)%nat; lia. }
  split; [exact Hsame|].
  intros Hdisj j Hji Hj. rewrite (Hsame j Hji Hj).
  rewrite (Hsame j Hji Hj) in Hj. intros (x & Hx1 & Hx2).
  apply (Hdisj j Hji Hj). exists x. split; [|done].
  revert Hx1. cbn [length set_length startIndex set_free].
  destruct (GLUS_MEMORY_TABLE_ENTRIES <=? other_index st i)%nat; lia.
Qed.

(** The theorem at the initial state and a request of 100 bytes. *)
Lemma malloc_grants_first_fit_witness :
  (glusMalloc 100 (initial_state 4096)).1 = 4096 /\
  (glusMalloc 100 (initial_state 4096)).1 <> 0 /\
  state_of (entry_at (g_memoryTable (glusMalloc 100 (initial_state 4096)).2) 0)
    = Allocated.
Proof.
  destruct (malloc_grants_first_fit 4096 (initial_state 4096) 100 0)
    as (H1 & H2 & H3 & _).
  - apply reach_init.
  - unfold SIZE_MODULUS. lia.
  - vm_compute. lia.
  - reflexivity.
  - vm_compute. discriminate.
  - intros k Hk. lia.
  - vm_compute. discriminate.
  - split; [exact H1|]. split; [exact H2|exact H3].
Defined.

(** C2. The address of a block that a split creates is not the arena
    base plus [start * W]: [glusInitMemoryTableEntry] stores the word it
    reads from the arena at [start]. After the first [glusInternalMalloc]
    of 8 bytes the remainder block in slot 1 starts at word 2 and carries
    the pointer 0, the content of the zeroed arena, where the
    specification asks for [arena + 8]; had a client stored 77 there, it
    would carry 77. Only slot 0, set up by the static initialiser, has
    the address of its start. *)
Theorem split_pointer_is_arena_content (arena : Z) :
  pointer (entry_at (g_memoryTable (initial_state arena)) 0)
    = address arena (entry_at (g_memoryTable (initial_state arena)) 0) /\
  state_of (entry_at (g_memoryTable (glusInternalMalloc 8 (initial_state arena)).2) 1)
    = Free /\
  startIndex (entry_at (g_memoryTable (glusInternalMalloc 8 (initial_state arena)).2) 1)
    = 2 /\
  address arena
    (entry_at (g_memoryTable (glusInternalMalloc 8 (initial_state arena)).2) 1)
    = arena + 8 /\
  pointer (entry_at (g_memoryTable (glusInternalMalloc 8 (initial_state arena)).2) 1)
    = 0 /\
  pointer
    (entry_at
       (g_memoryTable
          (glusInternalMalloc 8 (store_word 2 77 (initial_state arena))).2) 1)
    = 77 /\
  (glusMalloc 8 (glusMalloc 8 (initial_state 4096)).2).1 = 0 /\
  state_of
    (entry_at (g_memoryTable (glusMalloc 8 (glusMalloc 8 (initial_state 4096)).2).2) 1)
    = Allocated.
Proof.
  assert (startIndex
            (entry_at (g_memoryTable (glusInternalMalloc 8 (initial_state arena)).2) 1)
          = 2) as Hstart by reflexivity.
  split; [unfold address, WORD; simpl; lia|].
  split; [reflexivity|]. split; [exact Hstart|].
  split; [unfold address, WORD; rewrite Hstart; lia|].
  split; [reflexivity|]. split; [reflexivity|].
  split; vm_compute; reflexivity.
Qed.

Lemma overwritten_reachable : reachable 4096 overwritten_state.
Proof.
  apply reach_malloc; [apply reach_free, reach_malloc; [apply reach_init|]|];
    unfold SIZE_MODULUS; lia.
Qed.

Lemma overwritten_live i :
  live overwritten_state i -> i = 0%nat \/ i = 1%nat.
Proof. intros [Hi _]. vm_compute in Hi. lia. Qed.

(** C5. The tiling is lost. Read in words, the initial block covers only
    the first quarter of the [GLUS_MEMORY_SIZE] words (its length field is
    initialised with the number of words, not of bytes). After
    [malloc(8)], [free], [malloc(4)] two blocks are live, of 4 bytes each,
    at words 0 and 1: read in words they leave word 2 and all that
    follows uncovered, read as written both contain 1. *)
Theorem tiling_is_lost :
  ~ tiles WORD GLUS_MEMORY_SIZE (initial_state 4096) /\
  reachable 4096 overwritten_state /\
  map (fun e => (state_of e, startIndex e, length e))
      (take (scan_limit overwritten_state) (g_memoryTable overwritten_state))
    = [(Allocated, 0, 4); (Free, 1, 4)] /\
  ~ tiles WORD GLUS_MEMORY_SIZE overwritten_state /\
  ~ tiles WORD (GLUS_MEMORY_SIZE / WORD) overwritten_state /\
  ~ tiles 1 GLUS_MEMORY_SIZE overwritten_state.
Proof.
  split.
  { intros H. destruct (H 2000000) as (Hgap & _ & _).
    destruct Hgap as (i & [Hi _] & Hc); [vm_compute; split; [discriminate|done]|].
    assert (i = 0%nat) as -> by (vm_compute in Hi; lia).
    unfold covers in Hc. vm_compute in Hc. destruct Hc as [_ Hc]. done. }
  split; [apply overwritten_reachable|]. split; [vm_compute; reflexivity|].
  assert (forall hi, 2 < hi -> ~ tiles WORD hi overwritten_state) as Hw.
  { intros hi Hhi H. destruct (H 2) as (Hgap & _ & _).
    destruct Hgap as (i & Hl & Hc); [lia|].
    apply overwritten_live in Hl. destruct Hl as [Hl|Hl]; subst i;
      unfold covers in Hc; vm_compute in Hc; destruct Hc as [Hc1 Hc2]; done. }
  split; [apply Hw; vm_compute; done|]. split; [apply Hw; vm_compute; done|].
  intros H. destruct (H 1) as (_ & Hov & _).
  assert (0%nat = 1%nat) as Heq; [|discriminate].
  apply Hov.
  - split; [vm_compute; lia|vm_compute; discriminate].
  - split; [vm_compute; lia|vm_compute; discriminate].
  - unfold covers. vm_compute. split; [discriminate|done].
  - unfold covers. vm_compute. split; [discriminate|done].
Qed.

Lemma chain_shape_valid f k st j :
  chain_shape f k st -> (j < k + 2)%nat ->
  valid (entry_at (g_memoryTable st) j) = true.
Proof.
  intros (_ & _ & _ & H0 & Hj & Hk) Hlt.
  destruct (decide (j = 0%nat)) as [->|]; [by rewrite H0|].
  destruct (decide (j = S k)) as [->|]; [by rewrite Hk|].
  by rewrite Hj by lia.
Qed.

Lemma chain_shape_not_free f k st j :
  chain_shape f k st -> (1 <= j <= k)%nat ->
  free (entry_at (g_memoryTable st) j) = false.
Proof. intros (_ & _ & _ & _ & Hj & _) Hlt. by rewrite Hj. Qed.

Lemma chain_shape_no_invalid f k st :
  chain_shape f k st -> (k + 2 <= GLUS_MEMORY_TABLE_ENTRIES)%nat ->
  glusFindMemoryTableEntry st = None.
Proof.
  intros Hs Hk. unfold glusFindMemoryTableEntry.
  apply first_index_None_intro. intros j Hj.
  rewrite (chain_shape_valid f k st j Hs); [done|].
  destruct Hs as (_ & _ & He & _). unfold scan_limit in Hj. lia.
Qed.

(** One grant of 4 bytes out of the rest: null is returned, the chain is
    one block longer. *)
Lemma chain_step k st :
  chain_shape false k st -> (k + 2 < GLUS_MEMORY_TABLE_ENTRIES)%nat ->
  (glusInternalMalloc 4 st).1 = 0 /\
  chain_shape false (S k) (glusInternalMalloc 4 st).2.
Proof.
  intros Hs Hk. pose proof Hs as (Hmem & Hlen & Hcnt & H0 & Hj & Hrest).
  assert (scan_limit st = (k + 2)%nat) as Hlim by (unfold scan_limit; lia).
  assert (valid (entry_at (g_memoryTable st) (S k)) = true) as Hv
    by (by rewrite Hrest).
  assert (other_index st (S k) = S (S k)) as Ho.
  { unfold other_index. by rewrite (chain_shape_no_invalid false k st Hs) by lia. }
  assert (first_index (fits 4) (g_memoryTable st) 0 (scan_limit st) = Some (S k))
    as Hfirst.
  { apply first_index_least; [lia| |].
    - rewrite Hrest. unfold fits, chain_rest; simpl. apply Z.leb_le.
      unfold GLUS_MEMORY_TABLE_ENTRIES in Hk. zlia.
    - intros j Hjk. unfold fits.
      destruct (decide (j = 0%nat)) as [->|]; [by rewrite H0|].
      rewrite (chain_shape_not_free false k st j Hs) by lia.
      by rewrite andb_false_r. }
  unfold glusInternalMalloc. change (allocated_length 4) with 4.
  change (4 <? 4) with false. cbn match. rewrite Hfirst. rewrite grant_eq by done. rewrite Ho, Hcnt.
  destruct (Nat.leb_spec GLUS_MEMORY_TABLE_ENTRIES (S (S k))) as [?|_]; [lia|].
  replace (S (S k) =? k + 2)%nat with true by (symmetry; apply Nat.eqb_eq; lia).
  rewrite Hrest. split; [done|].
  unfold chain_shape. cbn [snd g_memory g_memoryTable g_memoryTableEntries].
  rewrite !length_insert.
  split; [done|]. split; [done|]. split; [lia|]. split; [|split].
  - rewrite !entry_at_insert_ne by lia. done.
  - intros j Hjk. destruct (decide (j = S k)) as [->|Hne].
    + rewrite entry_at_insert_eq by (rewrite length_insert; lia).
      unfold chain_entry, chain_rest, set_length, set_free; simpl.
      f_equal. lia.
    + rewrite !entry_at_insert_ne by lia. apply Hj. lia.
  - rewrite entry_at_insert_ne by lia.
    rewrite entry_at_insert_eq by lia.
    unfold remainder_entry, chain_rest; simpl. rewrite Hmem.
    unfold GLUS_MEMORY_TABLE_ENTRIES in Hk. f_equal; zlia.
Qed.

Lemma chain_collect k st :
  chain_shape false k st -> (k + 2 <= GLUS_MEMORY_TABLE_ENTRIES)%nat ->
  glusGarbageCollect st = st.
Proof.
  intros Hs Hk. apply glusGarbageCollect_quiet.
  apply (rows_quiet_one_free _ _ (S k)). intros j Hj Hne.
  pose proof Hs as (_ & _ & Hcnt & H0 & _).
  destruct (decide (j = 0%nat)) as [->|]; [by rewrite H0|].
  apply (chain_shape_not_free false k st j Hs). unfold scan_limit in Hj. lia.
Qed.

(** One call [malloc(4)]: null is returned, the chain is two blocks
    longer. *)
Lemma chain_malloc k st :
  chain_shape false k st -> (k + 3 < GLUS_MEMORY_TABLE_ENTRIES)%nat ->
  (glusMalloc 4 st).1 = 0 /\ chain_shape false (S (S k)) (glusMalloc 4 st).2.
Proof.
  intros Hs Hk. unfold glusMalloc. change (4 =? 0) with false. cbn match.
  destruct (chain_step k st Hs ltac:(lia)) as [Hp Hs1].
  destruct (glusInternalMalloc 4 st) as [p st1]; simpl in Hp, Hs1. subst p.
  change (0 =? 0) with true. cbn match.
  rewrite (chain_collect (S k) st1 Hs1) by lia.
  apply chain_step; [done|lia].
Qed.

Lemma chain_iter n st :
  chain_shape false 0 st -> (2 * n + 2 <= GLUS_MEMORY_TABLE_ENTRIES)%nat ->
  chain_shape false (2 * n) (Nat.iter n malloc4 st).
Proof.
  intros Hs. induction n as [|n IH]; intros Hn; [done|].
  simpl Nat.iter. replace (2 * S n)%nat with (S (S (2 * n))) by lia.
  apply chain_malloc; [apply IH; lia|lia].
Qed.

Lemma reachable_iter arena n st :
  reachable arena st -> reachable arena (Nat.iter n malloc4 st).
Proof.
  intros Hr. induction n as [|n IH]; [done|]. simpl.
  apply reach_malloc; [done|]. unfold SIZE_MODULUS. lia.
Qed.

Lemma chain_start : chain_shape false 0 (glusMalloc 8 (initial_state 4096)).2.
Proof.
  unfold chain_shape. split; [done|]. split; [vm_compute; reflexivity|].
  split; [reflexivity|]. split; [reflexivity|]. split; [intros j Hj; lia|].
  vm_compute. reflexivity.
Qed.

Lemma chain_free k st :
  chain_shape false k st -> chain_shape true k (glusFree 4096 st).
Proof.
  intros Hs. pose proof Hs as (Hmem & Hlen & Hcnt & H0 & Hj & Hrest).
  unfold glusFree. change (4096 =? 0) with false. cbn match.
  rewrite (first_index_least _ _ _ 0%nat).
  - unfold chain_shape. cbn [with_table g_memory g_memoryTable g_memoryTableEntries].
    rewrite length_insert. split; [done|]. split; [done|]. split; [done|].
    split; [|split].
    + rewrite entry_at_insert_eq by (rewrite Hlen; unfold GLUS_MEMORY_TABLE_ENTRIES; lia).
      by rewrite H0.
    + intros j Hjk. rewrite entry_at_insert_ne by lia. by apply Hj.
    + by rewrite entry_at_insert_ne by lia.
  - unfold scan_limit, GLUS_MEMORY_TABLE_ENTRIES. lia.
  - by rewrite H0.
  - intros j Hj0. lia.
Qed.

Lemma full_table_shape : chain_shape true 1022 full_table_state.
Proof.
  apply chain_free. apply (chain_iter 511); [apply chain_start|].
  unfold GLUS_MEMORY_TABLE_ENTRIES. lia.
Qed.

Lemma full_table_reachable : reachable 4096 full_table_state.
Proof.
  apply reach_free, reachable_iter, reach_malloc; [apply reach_init|].
  unfold SIZE_MODULUS. lia.
Qed.

(** Where the fallback of the source does work: when no invalid slot is
    found and the chosen block sits in the last slot of the table, the
    block is granted in full and nothing else is written. *)
Lemma no_split_in_last_slot size al i st :
  valid (entry_at (g_memoryTable st) i) = true ->
  glusFindMemoryTableEntry st = None ->
  (GLUS_MEMORY_TABLE_ENTRIES <= S i)%nat ->
  grant size al i st =
    (pointer (entry_at (g_memoryTable st) i),
     with_table st
       (<[i := set_length (set_free (entry_at (g_memoryTable st) i) false)
                 (length (entry_at (g_memoryTable st) i))]> (g_memoryTable st))).
Proof.
  intros Hv Hnone Hi. rewrite grant_eq by done.
  unfold other_index. rewrite Hnone.
  by destruct (Nat.leb_spec GLUS_MEMORY_TABLE_ENTRIES (S i)) as [_|?]; [|lia].
Qed.

(** In any other slot [i], the remainder is written to slot [i + 1],
    whatever that slot holds. *)
Lemma split_overwrites_next_slot size al i st :
  valid (entry_at (g_memoryTable st) i) = true ->
  glusFindMemoryTableEntry st = None ->
  (S i < GLUS_MEMORY_TABLE_ENTRIES)%nat ->
  (S i < List.length (g_memoryTable st))%nat ->
  entry_at (g_memoryTable (grant size al i st).2) (S i) =
    remainder_entry st (entry_at (g_memoryTable st) i) al /\
  length (entry_at (g_memoryTable (grant size al i st).2) i) = al.
Proof.
  intros Hv Hnone Hi Hlen.
  pose proof (grant_remainder size al i st Hv) as Hr.
  pose proof (grant_entry size al i st Hv) as He.
  unfold other_index in *. rewrite Hnone in *. cbn zeta in Hr.
  destruct (decide _) as [_|Hn] in Hr; [|exfalso; apply Hn; done].
  split; [done|]. rewrite He.
  by destruct (Nat.leb_spec GLUS_MEMORY_TABLE_ENTRIES (S i)) as [?|_]; [lia|].
Qed.

(** The grant of 4 bytes in a state with a full table and slot 0 Free. *)
Lemma full_chain_grant st :
  chain_shape true 1022 st ->
  g_memoryTableEntries st = GLUS_MEMORY_TABLE_ENTRIES /\
  glusFindMemoryTableEntry st = None /\
  first_index (fits 4) (g_memoryTable st) 0 (scan_limit st) = Some 0%nat /\
  entry_at (g_memoryTable st) 0 =
    {| valid := true; free := true; startIndex := 0; length := 8;
       pointer := 4096 |} /\
  entry_at (g_memoryTable st) 1 =
    {| valid := true; free := false; startIndex := 2; length := 4;
       pointer := 0 |} /\
  (glusMalloc 4 st).1 = 4096 /\
  entry_at (g_memoryTable (glusMalloc 4 st).2) 0 =
    {| valid := true; free := false; startIndex := 0; length := 4;
       pointer := 4096 |} /\
  entry_at (g_memoryTable (glusMalloc 4 st).2) 1 =
    {| valid := true; free := true; startIndex := 1; length := 4;
       pointer := 0 |}.
Proof.
  intros Hs. pose proof Hs as (Hmem & Hlen & Hcnt & H0 & Hj & Hrest).
  assert (glusFindMemoryTableEntry st = None) as Hnone.
  { apply (chain_shape_no_invalid true 1022); [done|].
    unfold GLUS_MEMORY_TABLE_ENTRIES. lia. }
  assert (first_index (fits 4) (g_memoryTable st) 0 (scan_limit st) = Some 0%nat)
    as Hfirst.
  { apply first_index_least.
    - unfold scan_limit. rewrite Hcnt. unfold GLUS_MEMORY_TABLE_ENTRIES. lia.
    - by rewrite H0.
    - intros k Hk. lia. }
  assert (valid (entry_at (g_memoryTable st) 0) = true) as Hv by (by rewrite H0).
  assert (glusMalloc 4 st = grant 4 4 0 st) as Hm.
  { unfold glusMalloc, glusInternalMalloc. change (4 =? 0) with false.
    change (allocated_length 4) with 4. change (4 <? 4) with false.
    cbn match. rewrite Hfirst.
    pose proof (grant_pointer 4 4 0 st Hv) as Hp.
    rewrite H0 in Hp. cbn [pointer chain_head] in Hp.
    destruct (grant 4 4 0 st) as [p st1]. cbn [fst] in Hp. by subst p. }
  destruct (split_overwrites_next_slot 4 4 0 st Hv Hnone) as [Hnext Hcut].
  { unfold GLUS_MEMORY_TABLE_ENTRIES. lia. }
  { rewrite Hlen. unfold GLUS_MEMORY_TABLE_ENTRIES. lia. }
  split; [exact Hcnt|].
  split; [exact Hnone|]. split; [exact Hfirst|]. split; [exact H0|].
  split; [apply (Hj 1%nat); lia|]. rewrite Hm.
  split; [by rewrite grant_pointer, H0 by done|]. split.
  - rewrite grant_entry by done. rewrite H0. unfold other_index.
    by rewrite Hnone.
  - rewrite Hnext, H0. unfold remainder_entry. rewrite Hmem. reflexivity.
Qed.

(** C4. With the table at capacity and no Unused slot, a grant from a
    block with a positive remainder does split, unless the block is in
    the last slot. In [full_table_state], reached by [malloc(8)], 511
    times [malloc(4)] and [free] of the first pointer, all 1024 slots are
    activated and valid; [malloc(4)] chooses the Free block of 8 bytes in
    slot 0 and succeeds, but the block is cut to 4 bytes and the remainder
    is written over slot 1, which held an Allocated block. *)
Theorem full_table_split_overwrites :
  reachable 4096 full_table_state /\
  g_memoryTableEntries full_table_state = GLUS_MEMORY_TABLE_ENTRIES /\
  glusFindMemoryTableEntry full_table_state = None /\
  first_index (fits 4) (g_memoryTable full_table_state) 0
    (scan_limit full_table_state) = Some 0%nat /\
  entry_at (g_memoryTable full_table_state) 0 =
    {| valid := true; free := true; startIndex := 0; length := 8;
       pointer := 4096 |} /\
  entry_at (g_memoryTable full_table_state) 1 =
    {| valid := true; free := false; startIndex := 2; length := 4;
       pointer := 0 |} /\
  (glusMalloc 4 full_table_state).1 = 4096 /\
  entry_at (g_memoryTable (glusMalloc 4 full_table_state).2) 0 =
    {| valid := true; free := false; startIndex := 0; length := 4;
       pointer := 4096 |} /\
  entry_at (g_memoryTable (glusMalloc 4 full_table_state).2) 1 =
    {| valid := true; free := true; startIndex := 1; length := 4;
       pointer := 0 |}.
Proof.
  exact (conj full_table_reachable
           (full_chain_grant full_table_state full_table_shape)).
Qed.

(** ** Two runs of the collector, evaluated *)

(** In [two_free_blocks_state] the collector merges the Free block of 8
    bytes in slot 0 with the Free rest in slot 1: slot 0 then holds the
    whole initial length and slot 1 is Unused. *)
Example collect_merges_neighbours :
  map (fun e => (state_of e, startIndex e, length e))
      (take 2 (g_memoryTable two_free_blocks_state))
    = [(Free, 0, 8); (Free, 2, GLUS_MEMORY_SIZE - 8)] /\
  map (fun e => (state_of e, startIndex e, length e))
      (take 2 (g_memoryTable (glusGarbageCollect two_free_blocks_state)))
    = [(Free, 0, GLUS_MEMORY_SIZE); (Unused, 2, GLUS_MEMORY_SIZE - 8)].
Proof. split; vm_compute; reflexivity. Qed.

(** In [fragmented_state] the two Free blocks are not neighbours, and
    the collector changes nothing. *)
Example collect_keeps_fragments :
  glusGarbageCollect fragmented_state = fragmented_state.
Proof. vm_compute. reflexivity. Qed.

(** * Further properties of the code *)

(** ** The counter of activated slots *)

Lemma grant_counter size al i st :
  (g_memoryTableEntries st <= g_memoryTableEntries (grant size al i st).2
     <= S (g_memoryTableEntries st))%nat.
Proof.
  unfold grant, glusInitMemoryTableEntry.
  destruct (GLUS_MEMORY_TABLE_ENTRIES <=? other_index st i)%nat;
    cbn [snd with_table g_memoryTableEntries]; [lia|].
  destruct (other_index st i =? g_memoryTableEntries st)%nat; lia.
Qed.

Lemma glusInternalMalloc_counter size st :
  (g_memoryTableEntries st <= g_memoryTableEntries (glusInternalMalloc size st).2
     <= S (g_memoryTableEntries st))%nat.
Proof.
  unfold glusInternalMalloc. destruct (allocated_length size <? size); [simpl; lia|].
  destruct (first_index _ _ _ _); [apply grant_counter|simpl; lia].
Qed.

Lemma glusGarbageCollect_counter st :
  g_memoryTableEntries (glusGarbageCollect st) = g_memoryTableEntries st.
Proof. by destruct (glusGarbageCollect_result st) as (t & _ & ->). Qed.

Lemma glusFree_counter p st :
  g_memoryTableEntries (glusFree p st) = g_memoryTableEntries st.
Proof.
  unfold glusFree. destruct (p =? 0); [done|].
  by destruct (first_index _ _ _ _).
Qed.

Lemma glusMalloc_counter size st :
  (g_memoryTableEntries st <= g_memoryTableEntries (glusMalloc size st).2
     <= S (S (g_memoryTableEntries st)))%nat.
Proof.
  unfold glusMalloc. destruct (size =? 0); [simpl; lia|].
  pose proof (glusInternalMalloc_counter size st) as H1.
  destruct (glusInternalMalloc size st) as [p st1]; simpl in H1.
  destruct (p =? 0); [|simpl; lia].
  pose proof (glusInternalMalloc_counter size (glusGarbageCollect st1)) as H2.
  rewrite glusGarbageCollect_counter in H2. lia.
Qed.

Lemma reachable_counter_positive arena st :
  reachable arena st -> (1 <= g_memoryTableEntries st)%nat.
Proof.
  induction 1 as [|st size _ IH Hs|st p _ IH|st i v _ IH Hi Hv].
  - simpl. lia.
  - pose proof (glusMalloc_counter size st). lia.
  - by rewrite glusFree_counter.
  - done.
Qed.

(** X1. [glusFindMemoryTableEntry] returns the lowest activated slot
    that holds no block: the slot it returns is below the scan limit and
    Unused, every slot before it holds a block, and it fails exactly when
    every scanned slot holds a block. *)
Theorem find_returns_first_unused (st : state) :
  match glusFindMemoryTableEntry st with
  | Some i =>
      (i < scan_limit st)%nat /\
      state_of (entry_at (g_memoryTable st) i) = Unused /\
      forall k, (k < i)%nat -> state_of (entry_at (g_memoryTable st) k) <> Unused
  | None =>
      forall k, (k < scan_limit st)%nat ->
        state_of (entry_at (g_memoryTable st) k) <> Unused
  end.
Proof.
  unfold glusFindMemoryTableEntry.
  destruct (first_index _ _ _ _) as [i|] eqn:E.
  - apply first_index_Some in E as (Hi & Hp & Hk).
    split; [lia|]. split.
    + apply state_of_Unused. by destruct (valid (entry_at (g_memoryTable st) i)).
    + intros k Hki Hu. apply state_of_Unused in Hu.
      specialize (Hk k ltac:(lia)). cbv beta in Hk. rewrite Hu in Hk.
      discriminate.
  - intros k Hk Hu. apply state_of_Unused in Hu.
    pose proof (first_index_None _ _ _ _ E k ltac:(lia)) as Hn.
    cbv beta in Hn. rewrite Hu in Hn. discriminate.
Qed.

(** X2. The counter of activated slots never shrinks: [glusFree] and
    [glusGarbageCollect] leave it alone, a [glusInternalMalloc] raises it
    by at most one and a [glusMalloc] by at most two, and none of them
    takes it beyond the capacity of the table. *)
Theorem counter_monotone_and_bounded (st : state) (size p : Z) :
  g_memoryTableEntries (glusFree p st) = g_memoryTableEntries st /\
  g_memoryTableEntries (glusGarbageCollect st) = g_memoryTableEntries st /\
  (g_memoryTableEntries st
     <= g_memoryTableEntries (glusInternalMalloc size st).2
     <= S (g_memoryTableEntries st))%nat /\
  (g_memoryTableEntries st
     <= g_memoryTableEntries (glusMalloc size st).2
     <= S (S (g_memoryTableEntries st)))%nat /\
  ((g_memoryTableEntries st <= GLUS_MEMORY_TABLE_ENTRIES)%nat ->
   (g_memoryTableEntries (glusMalloc size st).2 <= GLUS_MEMORY_TABLE_ENTRIES)%nat).
Proof.
  split; [apply glusFree_counter|]. split; [apply glusGarbageCollect_counter|].
  split; [apply glusInternalMalloc_counter|].
  split; [apply glusMalloc_counter|].
  assert (forall s st0,
            (g_memoryTableEntries st0 <= GLUS_MEMORY_TABLE_ENTRIES)%nat ->
            (g_memoryTableEntries (glusInternalMalloc s st0).2
               <= GLUS_MEMORY_TABLE_ENTRIES)%nat) as HI.
  { intros s st0 Hle. unfold glusInternalMalloc.
    destruct (allocated_length s <? s); [done|].
    destruct (first_index _ _ _ _) as [i|]; [|done].
    unfold grant, glusInitMemoryTableEntry.
    destruct (Nat.leb_spec GLUS_MEMORY_TABLE_ENTRIES (other_index st0 i));
      cbn [snd with_table g_memoryTableEntries]; [done|].
    destruct (Nat.eqb_spec (other_index st0 i) (g_memoryTableEntries st0)); lia. }
  intros Hle. unfold glusMalloc. destruct (size =? 0); [done|].
  pose proof (HI size st Hle) as H1.
  destruct (glusInternalMalloc size st) as [q st1]; simpl in H1.
  destruct (q =? 0); [|done].
  apply HI. by rewrite glusGarbageCollect_counter.
Qed.

(** X3. In every state of a run the table has its 1024 slots, between 1
    and 1024 of them are activated, and every slot describes a whole
    number of words that ends within the first [GLUS_MEMORY_SIZE] bytes
    of the arena. *)
Theorem reachable_blocks_within_bounds (arena : Z) (st : state) :
  reachable arena st ->
  List.length (g_memoryTable st) = GLUS_MEMORY_TABLE_ENTRIES /\
  (1 <= g_memoryTableEntries st <= GLUS_MEMORY_TABLE_ENTRIES)%nat /\
  forall i,
    0 <= startIndex (entry_at (g_memoryTable st) i) /\
    0 <= length (entry_at (g_memoryTable st) i) /\
    length (entry_at (g_memoryTable st) i) mod WORD = 0 /\
    WORD * startIndex (entry_at (g_memoryTable st) i)
      + length (entry_at (g_memoryTable st) i) <= GLUS_MEMORY_SIZE.
Proof.
  intros Hr. pose proof (reachable_counter_positive arena st Hr) as Hpos.
  apply reachable_inv in Hr as (Hlen & Hcnt & HF).
  split; [done|]. split; [lia|]. intros i. exact (entry_at_ok _ i HF).
Qed.

(** The theorem at [fragmented_state]. *)
Lemma reachable_blocks_within_bounds_witness :
  List.length (g_memoryTable fragmented_state) = GLUS_MEMORY_TABLE_ENTRIES /\
  (1 <= g_memoryTableEntries fragmented_state <= GLUS_MEMORY_TABLE_ENTRIES)%nat.
Proof.
  destruct (reachable_blocks_within_bounds 4096 fragmented_state) as (H1 & H2 & _).
  - apply fragmented_reachable.
  - split; [exact H1|exact H2].
Defined.

(** X4. In every state of a run, the word that a split reads from the
    arena to fill the pointer of the remainder (index [start +
    allocatedLength / 4] of the chosen block) lies inside the array
    [g_memory]: no grant reads out of bounds. *)
Theorem split_reads_inside_arena (arena : Z) (st : state) (size : Z) (i : nat) :
  reachable arena st -> 0 <= size < SIZE_MODULUS ->
  first_index (fits size) (g_memoryTable st) 0 (scan_limit st) = Some i ->
  0 <= to_size_t (startIndex (entry_at (g_memoryTable st) i)
                  + allocated_length size / 4) < GLUS_MEMORY_SIZE.
Proof.
  intros Hr Hs Hi. apply reachable_inv in Hr.
  apply first_index_Some in Hi as (_ & Hfit & _).
  pose proof Hfit as Hfit'. apply fits_true in Hfit' as (_ & _ & Hle).
  pose proof Hr as (_ & _ & HF).
  pose proof (entry_at_ok _ i HF) as (He1 & He2 & He3 & He4).
  destruct (allocated_length_cases size Hs) as [[_ Hov]|(_ & Hal & _)].
  - pose proof (rounded_size_bounds size) as [Hb _]. clear HF Hr. zlia.
  - exact (remainder_start_in_arena size i st Hr ltac:(lia) Hfit Hal).
Qed.

(** The theorem at the initial state and a request of 10 bytes. *)
Lemma split_reads_inside_arena_witness :
  0 <= to_size_t (startIndex (entry_at (g_memoryTable (initial_state 4096)) 0)
                  + allocated_length 10 / 4) < GLUS_MEMORY_SIZE.
Proof.
  apply (split_reads_inside_arena 4096 (initial_state 4096) 10 0).
  - apply reach_init.
  - unfold SIZE_MODULUS. lia.
  - reflexivity.
Defined.

(** ** Release *)

Lemma first_index_tables p (t t' : list GLUSmemoryTable) i r :
  (forall k, (i <= k < i + r)%nat -> p (entry_at t k) = p (entry_at t' k)) ->
  first_index p t i r = first_index p t' i r.
Proof.
  revert i. induction r as [|r IH]; intros i H; simpl; [done|].
  rewrite H by lia. destruct (p (entry_at t' i)); [done|].
  apply IH. intros k Hk. apply H. lia.
Qed.

Lemma pointer_in_table (t : list GLUSmemoryTable) k :
  pointer (entry_at t k) <> 0 -> (k < List.length t)%nat.
Proof.
  intros Hp. destruct (decide (k < List.length t)%nat) as [|Hge]; [done|].
  rewrite entry_at_ge in Hp by lia. done.
Qed.

Lemma glusFree_pointer q st k :
  pointer (entry_at (g_memoryTable (glusFree q st)) k)
    = pointer (entry_at (g_memoryTable st) k).
Proof.
  unfold glusFree. destruct (q =? 0); [done|].
  destruct (first_index _ _ _ _) as [j|]; [|done].
  cbn [with_table g_memoryTable]. rewrite entry_at_insert.
  by destruct (decide _) as [[-> _]|_].
Qed.

Lemma glusFree_search p q st :
  first_index (fun e => pointer e =? p) (g_memoryTable (glusFree q st)) 0
    (scan_limit (glusFree q st))
  = first_index (fun e => pointer e =? p) (g_memoryTable st) 0 (scan_limit st).
Proof.
  unfold scan_limit. rewrite glusFree_counter.
  apply first_index_tables. intros k _. by rewrite glusFree_pointer.
Qed.

(** X5. [glusFree] of a non-null pointer releases in place the first
    scanned slot that stores it: that slot gets its free flag set and
    keeps its validity, start, length and pointer, so an Allocated block
    becomes Free; no other slot, the counter and the arena change; no
    neighbour is merged. *)
Theorem free_releases_first_match (st : state) (p : Z) (k : nat) :
  p <> 0 -> (k < scan_limit st)%nat ->
  pointer (entry_at (g_memoryTable st) k) = p ->
  (forall j, (j < k)%nat -> pointer (entry_at (g_memoryTable st) j) <> p) ->
  entry_at (g_memoryTable (glusFree p st)) k
    = set_free (entry_at (g_memoryTable st) k) true /\
  (state_of (entry_at (g_memoryTable st) k) = Allocated ->
   state_of (entry_at (g_memoryTable (glusFree p st)) k) = Free) /\
  (forall j, j <> k ->
     entry_at (g_memoryTable (glusFree p st)) j = entry_at (g_memoryTable st) j) /\
  g_memoryTableEntries (glusFree p st) = g_memoryTableEntries st /\
  g_memory (glusFree p st) = g_memory st.
Proof.
  intros Hp Hk Hptr Hfirst.
  assert (k < List.length (g_memoryTable st))%nat as Hlen
    by (apply pointer_in_table; congruence).
  unfold glusFree. destruct (Z.eqb_spec p 0) as [?|_]; [done|].
  rewrite (first_index_least _ _ _ k Hk).
  - cbn [with_table g_memoryTable g_memoryTableEntries g_memory].
    rewrite entry_at_insert_eq by done. split; [done|]. split.
    + intros Ha. apply state_of_Allocated in Ha as [Hv _].
      apply state_of_Free. by simpl.
    + split; [|done]. intros j Hj. by rewrite entry_at_insert_ne.
  - by apply Z.eqb_eq.
  - intros j Hj. apply Z.eqb_neq. by apply Hfirst.
Qed.

(** The theorem after [malloc(8)] on the initial state, at the pointer
    returned. *)
Lemma free_releases_first_match_witness :
  state_of
    (entry_at (g_memoryTable (glusFree 4096 (glusMalloc 8 (initial_state 4096)).2)) 0)
  = Free.
Proof.
  destruct (free_releases_first_match (glusMalloc 8 (initial_state 4096)).2 4096 0)
    as (_ & H & _).
  - discriminate.
  - vm_compute. lia.
  - reflexivity.
  - intros j Hj. lia.
  - apply H. reflexivity.
Defined.

(** X6. Releasing the same pointer twice is the same as releasing it
    once: a double [glusFree] does no further harm to the table. *)
Theorem free_idempotent (st : state) (p : Z) :
  glusFree p (glusFree p st) = glusFree p st.
Proof.
  unfold glusFree at 1. destruct (Z.eqb_spec p 0) as [?|Hp]; [done|].
  rewrite glusFree_search.
  destruct (first_index _ _ _ _) as [k|] eqn:E; [|done].
  unfold glusFree. destruct (Z.eqb_spec p 0) as [?|_]; [done|]. rewrite E.
  cbn [with_table g_memoryTable g_memoryTableEntries g_memory].
  apply first_index_Some in E as (_ & Hptr & _). apply Z.eqb_eq in Hptr.
  assert (k < List.length (g_memoryTable st))%nat as Hlen
    by (apply pointer_in_table; congruence).
  rewrite entry_at_insert_eq by done. by rewrite list_insert_insert_eq.
Qed.

(** X7. Releases commute: two [glusFree] calls leave the same state in
    either order. *)
Theorem free_commute (st : state) (p q : Z) :
  glusFree p (glusFree q st) = glusFree q (glusFree p st).
Proof.
  destruct (decide (p = q)) as [->|Hpq]; [done|].
  unfold glusFree at 1 3.
  destruct (Z.eqb_spec p 0) as [?|Hp], (Z.eqb_spec q 0) as [?|Hq];
    rewrite ?glusFree_search.
  - congruence.
  - subst p. change (glusFree 0 st) with st.
    unfold glusFree. by destruct (Z.eqb_spec q 0).
  - subst q. change (glusFree 0 st) with st.
    unfold glusFree. by destruct (Z.eqb_spec p 0).
  - unfold glusFree.
    destruct (Z.eqb_spec p 0) as [?|_]; [done|].
    destruct (Z.eqb_spec q 0) as [?|_]; [done|].
    destruct (first_index (fun e => pointer e =? p) _ _ _) as [kp|] eqn:Ep,
             (first_index (fun e => pointer e =? q) _ _ _) as [kq|] eqn:Eq;
      try done.
    apply first_index_Some in Ep as (_ & Hkp & _). apply Z.eqb_eq in Hkp.
    apply first_index_Some in Eq as (_ & Hkq & _). apply Z.eqb_eq in Hkq.
    assert (kp <> kq) as Hne by congruence.
    cbn [with_table g_memoryTable g_memoryTableEntries g_memory].
    rewrite !entry_at_insert_ne by done.
    by rewrite list_insert_insert_ne.
Qed.

(** ** Allocation *)

Lemma scan_limit_mono st st' :
  (g_memoryTableEntries st <= g_memoryTableEntries st')%nat ->
  (scan_limit st <= scan_limit st')%nat.
Proof. unfold scan_limit. lia. Qed.

Lemma glusInternalMalloc_nonnull size st :
  (glusInternalMalloc size st).1 <> 0 ->
  exists i,
    (i < scan_limit (glusInternalMalloc size st).2)%nat /\
    state_of (entry_at (g_memoryTable (glusInternalMalloc size st).2) i)
      = Allocated /\
    pointer (entry_at (g_memoryTable (glusInternalMalloc size st).2) i)
      = (glusInternalMalloc size st).1 /\
    size <= length (entry_at (g_memoryTable (glusInternalMalloc size st).2) i).
Proof.
  pose proof (glusInternalMalloc_counter size st) as Hcnt. revert Hcnt.
  unfold glusInternalMalloc.
  destruct (Z.ltb_spec (allocated_length size) size) as [?|Hal]; [done|].
  destruct (first_index _ _ _ _) as [i|] eqn:E; [|done]. intros Hcnt _.
  apply first_index_Some in E as (Hi & Hfit & _).
  apply fits_true in Hfit as (Hv & Hf & Hle).
  exists i. rewrite grant_pointer, grant_entry by done.
  split; [pose proof (scan_limit_mono _ _ (proj1 Hcnt)); lia|].
  split; [by apply state_of_Allocated|]. split; [done|].
  cbn [length set_length].
  destruct (GLUS_MEMORY_TABLE_ENTRIES <=? other_index st i)%nat; lia.
Qed.

(** X8. Whatever the state, a non-null result of [glusMalloc] is the
    stored pointer of a scanned slot that is Allocated when the call
    returns and tracks at least the requested size. *)
Theorem malloc_result_is_allocated_block (st : state) (size : Z) :
  (glusMalloc size st).1 <> 0 ->
  exists i,
    (i < scan_limit (glusMalloc size st).2)%nat /\
    state_of (entry_at (g_memoryTable (glusMalloc size st).2) i) = Allocated /\
    pointer (entry_at (g_memoryTable (glusMalloc size st).2) i)
      = (glusMalloc size st).1 /\
    size <= length (entry_at (g_memoryTable (glusMalloc size st).2) i).
Proof.
  unfold glusMalloc. destruct (size =? 0); [done|].
  pose proof (glusInternalMalloc_nonnull size st) as H1.
  destruct (glusInternalMalloc size st) as [p st1]; simpl in H1.
  destruct (Z.eqb_spec p 0) as [->|Hp].
  - apply glusInternalMalloc_nonnull.
  - intros _. by apply H1.
Qed.

(** The theorem at the initial state and a request of 100 bytes. *)
Lemma malloc_result_is_allocated_block_witness :
  exists i,
    (i < scan_limit (glusMalloc 100 (initial_state 4096)).2)%nat /\
    state_of (entry_at (g_memoryTable (glusMalloc 100 (initial_state 4096)).2) i)
      = Allocated /\
    pointer (entry_at (g_memoryTable (glusMalloc 100 (initial_state 4096)).2) i)
      = (glusMalloc 100 (initial_state 4096)).1 /\
    100 <= length (entry_at (g_memoryTable (glusMalloc 100 (initial_state 4096)).2) i).
Proof.
  apply (malloc_result_is_allocated_block (initial_state 4096) 100).
  vm_compute. discriminate.
Defined.

Lemma glusFindMemoryTableEntry_Some st o :
  glusFindMemoryTableEntry st = Some o ->
  (o < scan_limit st)%nat /\ state_of (entry_at (g_memoryTable st) o) = Unused.
Proof.
  unfold glusFindMemoryTableEntry. intros E.
  apply first_index_Some in E as (Hi & Hp & _). split; [lia|].
  apply state_of_Unused. by destruct (valid (entry_at (g_memoryTable st) o)).
Qed.

(** X9. Slot recycling. In a state of a run, when some activated slot is
    Unused, a grant writes its remainder into the first such slot, which
    becomes a Free block; the counter of activated slots stays as it is,
    and apart from that slot and the granted one no slot changes. *)
Theorem grant_recycles_unused_slot
    (arena : Z) (st : state) (size : Z) (i o : nat) :
  reachable arena st -> 0 <= size < SIZE_MODULUS ->
  first_index (fits size) (g_memoryTable st) 0 (scan_limit st) = Some i ->
  glusFindMemoryTableEntry st = Some o ->
  state_of (entry_at (g_memoryTable st) o) = Unused /\
  state_of (entry_at (g_memoryTable (glusInternalMalloc size st).2) o) = Free /\
  state_of (entry_at (g_memoryTable (glusInternalMalloc size st).2) i)
    = Allocated /\
  g_memoryTableEntries (glusInternalMalloc size st).2 = g_memoryTableEntries st /\
  forall j, j <> i -> j <> o ->
    entry_at (g_memoryTable (glusInternalMalloc size st).2) j
      = entry_at (g_memoryTable st) j.
Proof.
  intros Hr Hs Hi Ho. apply reachable_inv in Hr as (Hlen & Hcnt & HF).
  destruct (glusFindMemoryTableEntry_Some st o Ho) as (Holim & Hunused).
  pose proof Hi as Hi'. apply first_index_Some in Hi' as (_ & Hfit & _).
  apply fits_true in Hfit as (Hv & Hf & Hle).
  pose proof (entry_at_ok _ i HF) as (He1 & He2 & He3 & He4).
  assert ((allocated_length size <? size) = false) as Hlt.
  { destruct (allocated_length_cases size Hs) as [[_ Hov]|(Hlt & _)]; [|done].
    pose proof (rounded_size_bounds size) as [Hb _]. clear HF. zlia. }
  assert (other_index st i = o) as Hother by (unfold other_index; by rewrite Ho).
  assert (o < GLUS_MEMORY_TABLE_ENTRIES)%nat as Ho1024
    by (unfold scan_limit in Holim; lia).
  unfold glusInternalMalloc. rewrite Hlt, Hi.
  split; [done|]. split.
  { pose proof (grant_remainder size (allocated_length size) i st Hv) as Hrem.
    cbn zeta in Hrem. rewrite Hother in Hrem. rewrite Hrem.
    destruct (decide _) as [_|Hn]; [done|]. exfalso. apply Hn. lia. }
  split; [rewrite grant_entry by done; by apply state_of_Allocated|]. split.
  { rewrite grant_eq by done. rewrite Hother.
    destruct (Nat.leb_spec GLUS_MEMORY_TABLE_ENTRIES o) as [?|_]; [lia|].
    cbn [snd g_memoryTableEntries].
    destruct (Nat.eqb_spec o (g_memoryTableEntries st)) as [He|_]; [|done].
    unfold scan_limit in Holim. lia. }
  intros j Hji Hjo. apply grant_other; [done|done|by rewrite Hother].
Qed.

(** The theorem after the collector has merged the two Free blocks of
    [two_free_blocks_state], which leaves slot 1 Unused. *)
Lemma grant_recycles_unused_slot_witness :
  g_memoryTableEntries
    (glusInternalMalloc 16 (glusMalloc (2 ^ 64 - 1) two_free_blocks_state).2).2
  = g_memoryTableEntries (glusMalloc (2 ^ 64 - 1) two_free_blocks_state).2.
Proof.
  destruct (grant_recycles_unused_slot 4096
              (glusMalloc (2 ^ 64 - 1) two_free_blocks_state).2 16 0 1)
    as (_ & _ & _ & H & _).
  - apply reach_malloc; [apply two_free_blocks_reachable|].
    unfold SIZE_MODULUS. lia.
  - unfold SIZE_MODULUS. lia.
  - vm_compute. reflexivity.
  - vm_compute. reflexivity.
  - exact H.
Defined.

(** X10. A split loses no byte. In a state of a run, when a grant splits
    the chosen block (the slot for the remainder lies inside the table),
    the granted part keeps the start of the block and has the rounded
    size, the remainder starts at the word where the granted part ends,
    the two lengths add up to the former length, and the two blocks pass
    the adjacency test of the collector. *)
Theorem split_conserves_bytes (arena : Z) (st : state) (size : Z) (i : nat) :
  reachable arena st -> 0 <= size < SIZE_MODULUS ->
  first_index (fits size) (g_memoryTable st) 0 (scan_limit st) = Some i ->
  (other_index st i < GLUS_MEMORY_TABLE_ENTRIES)%nat ->
  startIndex (entry_at (g_memoryTable (glusInternalMalloc size st).2) i)
    = startIndex (entry_at (g_memoryTable st) i) /\
  length (entry_at (g_memoryTable (glusInternalMalloc size st).2) i)
    = rounded_size size /\
  startIndex
    (entry_at (g_memoryTable (glusInternalMalloc size st).2) (other_index st i))
    = startIndex (entry_at (g_memoryTable st) i) + rounded_size size / WORD /\
  length (entry_at (g_memoryTable (glusInternalMalloc size st).2) i)
  + length
      (entry_at (g_memoryTable (glusInternalMalloc size st).2) (other_index st i))
    = length (entry_at (g_memoryTable st) i) /\
  adjacent
    (entry_at (g_memoryTable (glusInternalMalloc size st).2) i)
    (entry_at (g_memoryTable (glusInternalMalloc size st).2) (other_index st i))
    = true.
Proof.
  intros Hr Hs Hi Ho. apply reachable_inv in Hr as (Hlen & Hcnt & HF).
  pose proof Hi as Hi'. apply first_index_Some in Hi' as (_ & Hfit & _).
  apply fits_true in Hfit as (Hv & Hf & Hle).
  pose proof (entry_at_ok _ i HF) as (He1 & He2 & He3 & He4).
  pose proof (rounded_size_bounds size) as [Hb Hm].
  destruct (allocated_length_cases size Hs) as [[_ Hov]|(Hlt & Hal & _)];
    [clear HF; zlia|].
  unfold glusInternalMalloc. rewrite Hlt, Hi, Hal.
  pose proof (grant_remainder size (rounded_size size) i st Hv) as Hrem.
  cbn zeta in Hrem. rewrite Hrem. rewrite grant_entry by done.
  destruct (decide _) as [_|Hn]; [|exfalso; apply Hn; lia].
  destruct (Nat.leb_spec GLUS_MEMORY_TABLE_ENTRIES (other_index st i)) as [?|_];
    [lia|].
  unfold adjacent, remainder_entry.
  cbn [startIndex length set_length set_free].
  set (e := entry_at (g_memoryTable st) i) in *.
  assert (to_size_t (startIndex e + rounded_size size / 4)
          = startIndex e + rounded_size size / 4) as E1 by (clear HF; zlia).
  assert (to_size_t (length e - rounded_size size)
          = length e - rounded_size size) as E2 by (clear HF; zlia).
  rewrite E1, E2. unfold WORD.
  split; [done|]. split; [done|]. split; [done|]. split; [lia|].
  by apply Z.eqb_eq.
Qed.

(** The theorem at the initial state and a request of 10 bytes. *)
Lemma split_conserves_bytes_witness :
  length (entry_at (g_memoryTable (glusInternalMalloc 10 (initial_state 4096)).2) 0)
  + length
      (entry_at (g_memoryTable (glusInternalMalloc 10 (initial_state 4096)).2)
         (other_index (initial_state 4096) 0))
    = length (entry_at (g_memoryTable (initial_state 4096)) 0).
Proof.
  destruct (split_conserves_bytes 4096 (initial_state 4096) 10 0)
    as (_ & _ & _ & H & _).
  - apply reach_init.
  - unfold SIZE_MODULUS. lia.
  - reflexivity.
  - vm_compute. lia.
  - exact H.
Defined.

(** X11. No request above [GLUS_MEMORY_SIZE] bytes, a quarter of the
    arena, is ever granted: in every state of a run [glusMalloc] returns
    null for it, after the one collector run it makes. *)
Theorem oversize_request_fails (arena : Z) (st : state) (size : Z) :
  reachable arena st -> GLUS_MEMORY_SIZE < size < SIZE_MODULUS ->
  glusMalloc size st = (0, glusGarbageCollect st).
Proof.
  intros Hr Hs. apply reachable_inv in Hr.
  assert (forall s, table_inv s -> glusInternalMalloc size s = (0, s)) as Hnull.
  { intros s (_ & _ & HF). unfold glusInternalMalloc.
    destruct (allocated_length size <? size); [done|].
    rewrite first_index_None_intro; [done|]. intros k _.
    pose proof (entry_at_ok _ k HF) as (He1 & He2 & He3 & He4).
    unfold fits. replace (size <=? length (entry_at (g_memoryTable s) k)) with false.
    - by rewrite andb_false_r.
    - symmetry. apply Z.leb_gt. clear HF. zlia. }
  unfold glusMalloc. destruct (Z.eqb_spec size 0) as [?|_]; [zlia|].
  rewrite (Hnull st Hr). simpl. apply Hnull. by apply glusGarbageCollect_inv.
Qed.

(** The theorem at the initial state, one byte above the limit. *)
Lemma oversize_request_fails_witness :
  glusMalloc (GLUS_MEMORY_SIZE + 1) (initial_state 4096)
    = (0, glusGarbageCollect (initial_state 4096)).
Proof.
  apply (oversize_request_fails 4096).
  - apply reach_init.
  - vm_compute. split; reflexivity.
Defined.

(** ** Collection *)

Lemma gc_frame_refl t : gc_frame t t.
Proof. split; [done|]. intros k. done. Qed.

Lemma gc_frame_trans t1 t2 t3 :
  gc_frame t1 t2 -> gc_frame t2 t3 -> gc_frame t1 t3.
Proof.
  intros [L12 H12] [L23 H23]. split; [congruence|]. intros k.
  destruct (H12 k) as (A1 & A2 & A3 & A4 & A5).
  destruct (H23 k) as (B1 & B2 & B3 & B4 & B5).
  split; [congruence|]. split; [congruence|]. split; [congruence|].
  split; [auto|]. intros Hnf. rewrite <- (A5 Hnf). apply B5.
  by rewrite (A5 Hnf).
Qed.

Lemma merge_frame t i j :
  i <> j ->
  valid (entry_at t i) && free (entry_at t i) = true ->
  valid (entry_at t j) && free (entry_at t j) = true ->
  gc_frame t (merge t i j) /\
  valid (entry_at (merge t i j) i) && free (entry_at (merge t i j) i) = true.
Proof.
  intros Hne Hi Hj.
  apply andb_true_iff in Hi as [Hvi Hfi]. apply andb_true_iff in Hj as [Hvj Hfj].
  pose proof (valid_in_table _ _ Hvi) as Hli.
  assert (forall k, entry_at (merge t i j) k =
            if decide (k = j) then set_valid (entry_at t j) false
            else if decide (k = i)
                 then set_length (entry_at t i)
                        (to_size_t (length (entry_at t i) + length (entry_at t j)))
                 else entry_at t k) as Hm.
  { intros k. unfold merge. pose proof (valid_in_table _ _ Hvj) as Hlj.
    destruct (decide (k = j)) as [->|Hkj].
    - rewrite entry_at_insert_eq by (by rewrite length_insert).
      by rewrite entry_at_insert_ne.
    - rewrite entry_at_insert_ne by done.
      destruct (decide (k = i)) as [->|Hki].
      + by rewrite entry_at_insert_eq.
      + by rewrite entry_at_insert_ne. }
  split.
  - split; [apply merge_length|]. intros k. rewrite Hm.
    destruct (decide (k = j)) as [->|]; [|destruct (decide (k = i)) as [->|]].
    + cbn [startIndex pointer free valid set_valid].
      split; [done|]. split; [done|]. split; [done|]. split; [done|].
      intros Hnf. destruct Hnf. by apply state_of_Free.
    + cbn [startIndex pointer free valid set_length].
      split; [done|]. split; [done|]. split; [done|]. split; [done|].
      intros Hnf. destruct Hnf. by apply state_of_Free.
    + done.
  - rewrite Hm. destruct (decide (i = j)); [done|].
    destruct (decide (i = i)); [|done]. simpl. by rewrite Hvi, Hfi.
Qed.

Lemma mergeable_free t i j :
  mergeable t i j = true ->
  valid (entry_at t j) && free (entry_at t j) = true.
Proof. unfold mergeable. intros H. by apply andb_true_iff in H as [H _]. Qed.

Lemma gc_inner_frame rem i j t c :
  valid (entry_at t i) && free (entry_at t i) = true ->
  gc_frame t (gc_inner rem i j t c).1 /\
  valid (entry_at (gc_inner rem i j t c).1 i)
    && free (entry_at (gc_inner rem i j t c).1 i) = true.
Proof.
  revert j t c. induction rem as [|r IH]; intros j t c Hi; simpl.
  - split; [apply gc_frame_refl|done].
  - destruct (Nat.eqb_spec j i) as [->|Hne]; [by apply IH|].
    fold (mergeable t i j). fold (merge t i j).
    destruct (mergeable t i j) eqn:Hm; [|by apply IH].
    destruct (merge_frame t i j ltac:(done) Hi (mergeable_free _ _ _ Hm))
      as [Hf Hi'].
    destruct (IH (S j) (merge t i j) true Hi') as [Hf' Hi''].
    split; [by eapply gc_frame_trans|done].
Qed.

Lemma gc_outer_frame rem i limit t c :
  gc_frame t (gc_outer rem i limit t c).1.
Proof.
  revert i t c. induction rem as [|r IH]; intros i t c; simpl.
  - apply gc_frame_refl.
  - destruct (valid (entry_at t i) && free (entry_at t i)) eqn:Hvf; [|apply IH].
    pose proof (gc_inner_frame limit i 0 t c Hvf) as [Hf _].
    destruct (gc_inner limit i 0 t c) as [t1 c1]; simpl in *.
    eapply gc_frame_trans; [exact Hf|apply IH].
Qed.

Lemma gc_loop_frame fuel limit t t' :
  gc_loop fuel limit t = Some t' -> gc_frame t t'.
Proof.
  revert t. induction fuel as [|f IH]; intros t H; [discriminate|].
  simpl in H. unfold gc_pass in H.
  pose proof (gc_outer_frame limit 0 limit t false) as Hf.
  destruct (gc_outer limit 0 limit t false) as [t1 [|]]; simpl in Hf.
  - eapply gc_frame_trans; [exact Hf|by apply IH].
  - by injection H as <-.
Qed.

(** X12. [glusGarbageCollect] works on Free blocks only: every slot that
    is not Free when it starts, in particular every Allocated block, is
    exactly the same when it returns, and no block becomes Allocated; of
    every slot it keeps the start, the pointer and the free flag; the
    counter, the size of the table and the arena are unchanged. All it
    does is enlarge Free blocks and turn Free blocks into Unused slots. *)
Theorem collect_changes_free_blocks_only (st : state) :
  g_memory (glusGarbageCollect st) = g_memory st /\
  g_memoryTableEntries (glusGarbageCollect st) = g_memoryTableEntries st /\
  List.length (g_memoryTable (glusGarbageCollect st))
    = List.length (g_memoryTable st) /\
  forall k,
    (state_of (entry_at (g_memoryTable st) k) <> Free ->
     entry_at (g_memoryTable (glusGarbageCollect st)) k
       = entry_at (g_memoryTable st) k) /\
    (state_of (entry_at (g_memoryTable (glusGarbageCollect st)) k) = Allocated ->
     state_of (entry_at (g_memoryTable st) k) = Allocated) /\
    startIndex (entry_at (g_memoryTable (glusGarbageCollect st)) k)
      = startIndex (entry_at (g_memoryTable st) k) /\
    pointer (entry_at (g_memoryTable (glusGarbageCollect st)) k)
      = pointer (entry_at (g_memoryTable st) k) /\
    free (entry_at (g_memoryTable (glusGarbageCollect st)) k)
      = free (entry_at (g_memoryTable st) k).
Proof.
  destruct (glusGarbageCollect_result st) as (t & Ht & ->).
  apply gc_loop_frame in Ht as [Hlen Hk].
  cbn [with_table g_memory g_memoryTable g_memoryTableEntries].
  split; [done|]. split; [done|]. split; [done|]. intros k.
  destruct (Hk k) as (A1 & A2 & A3 & A4 & A5).
  split; [done|]. split; [|done].
  intros Ha. apply state_of_Allocated in Ha as [Hv Hf].
  apply state_of_Allocated. split; [by apply A4|congruence].
Qed.

Lemma free_sum_cons e t : free_sum (e :: t) = free_length e + free_sum t.
Proof. unfold free_sum, free_length; simpl. destruct (state_of e); lia. Qed.

Lemma free_sum_insert (t : list GLUSmemoryTable) i x :
  (i < List.length t)%nat ->
  free_sum (<[i := x]> t)
    = free_sum t - free_length (entry_at t i) + free_length x.
Proof.
  revert i. induction t as [|e t IH]; intros i Hi; simpl in Hi; [lia|].
  destruct i as [|i].
  - change (<[0%nat := x]> (e :: t)) with (x :: t).
    change (entry_at (e :: t) 0) with e. rewrite !free_sum_cons. lia.
  - change (<[S i := x]> (e :: t)) with (e :: <[i := x]> t).
    rewrite entry_at_cons_S, !free_sum_cons, IH by lia. lia.
Qed.

Lemma entry_at_take (t : list GLUSmemoryTable) n i :
  (i < n)%nat -> entry_at (take n t) i = entry_at t i.
Proof. intros Hi. unfold entry_at. by rewrite lookup_take_lt. Qed.

Lemma free_length_Free e :
  valid e && free e = true -> free_length e = length e.
Proof.
  intros H. apply andb_true_iff in H as [Hv Hf].
  unfold free_length, state_of. by rewrite Hv, Hf.
Qed.

(** A merge moves the length of one Free block into another one: the
    free capacity of the scanned slots is the same before and after. *)
Lemma merge_free_sum n t i j :
  Forall entry_ok t -> i <> j -> (i < n)%nat -> (j < n)%nat ->
  valid (entry_at t i) && free (entry_at t i) = true ->
  mergeable t i j = true ->
  free_sum (take n (merge t i j)) = free_sum (take n t).
Proof.
  intros HF Hne Hi Hj Hvi Hm.
  pose proof (mergeable_free _ _ _ Hm) as Hvj.
  pose proof (entry_at_ok t i HF) as (Ha1 & Ha2 & Ha3 & Ha4).
  pose proof (entry_at_ok t j HF) as (Hb1 & Hb2 & Hb3 & Hb4).
  unfold mergeable in Hm. apply andb_true_iff in Hm as [_ Hadj].
  unfold adjacent in Hadj. apply Z.eqb_eq in Hadj.
  assert (i < List.length t)%nat as Hli.
  { apply valid_in_table. by apply andb_true_iff in Hvi as [? _]. }
  assert (j < List.length t)%nat as Hlj.
  { apply valid_in_table. by apply andb_true_iff in Hvj as [? _]. }
  unfold merge. rewrite entry_at_insert_ne by done.
  rewrite !take_insert_lt by done.
  rewrite free_sum_insert by (rewrite length_insert, length_take; lia).
  rewrite entry_at_insert_ne by done.
  rewrite free_sum_insert by (rewrite length_take; lia).
  rewrite !entry_at_take by done.
  rewrite (free_length_Free _ Hvi), (free_length_Free _ Hvj).
  replace (free_length (set_valid (entry_at t j) false)) with 0 by reflexivity.
  assert (free_length (set_length (entry_at t i)
                         (to_size_t (length (entry_at t i) + length (entry_at t j))))
          = to_size_t (length (entry_at t i) + length (entry_at t j))) as ->.
  { apply free_length_Free. exact Hvi. }
  clear HF. zlia.
Qed.

Lemma gc_inner_free_sum n rem i j t c :
  Forall entry_ok t -> (i < n)%nat -> (j + rem <= n)%nat ->
  valid (entry_at t i) && free (entry_at t i) = true ->
  free_sum (take n (gc_inner rem i j t c).1) = free_sum (take n t).
Proof.
  revert j t c. induction rem as [|r IH]; intros j t c HF Hi Hj Hvi; simpl;
    [done|].
  destruct (Nat.eqb_spec j i) as [->|Hne]; [apply IH; (done || lia)|].
  fold (mergeable t i j). fold (merge t i j).
  destruct (mergeable t i j) eqn:Hm; [|apply IH; (done || lia)].
  destruct (merge_frame t i j ltac:(done) Hvi (mergeable_free _ _ _ Hm))
    as [_ Hvi'].
  rewrite IH; [|by apply merge_ok|done|lia|done].
  apply merge_free_sum; (done || lia).
Qed.

Lemma gc_outer_free_sum n rem i t c :
  Forall entry_ok t -> (i + rem <= n)%nat ->
  free_sum (take n (gc_outer rem i n t c).1) = free_sum (take n t).
Proof.
  revert i t c. induction rem as [|r IH]; intros i t c HF Hi; simpl; [done|].
  destruct (valid (entry_at t i) && free (entry_at t i)) eqn:Hvf;
    [|apply IH; (done || lia)].
  pose proof (gc_inner_free_sum n n i 0 t c HF ltac:(lia) ltac:(lia) Hvf) as Hs.
  pose proof (gc_inner_inv n i 0 t c HF) as [HF1 _].
  destruct (gc_inner n i 0 t c) as [t1 c1]; simpl in *.
  rewrite IH; [done|done|lia].
Qed.

Lemma gc_loop_free_sum fuel n t t' :
  gc_loop fuel n t = Some t' -> Forall entry_ok t ->
  free_sum (take n t') = free_sum (take n t).
Proof.
  revert t. induction fuel as [|f IH]; intros t H HF; [discriminate|].
  simpl in H. unfold gc_pass in H.
  pose proof (gc_outer_free_sum n n 0 t false HF ltac:(lia)) as Hs.
  pose proof (gc_outer_inv n 0 n t false HF) as [HF1 _].
  destruct (gc_outer n 0 n t false) as [t1 [|]]; simpl in *.
  - rewrite (IH _ H HF1). done.
  - by injection H as <-.
Qed.

(** X13. In every state of a run, [glusGarbageCollect] neither loses nor
    creates free capacity: the lengths of the Free blocks among the
    scanned slots add up to the same total before and after. *)
Theorem collect_conserves_free_capacity (arena : Z) (st : state) :
  reachable arena st ->
  total_free (glusGarbageCollect st) = total_free st.
Proof.
  intros Hr. apply reachable_inv in Hr as (_ & _ & HF).
  destruct (glusGarbageCollect_result st) as (t & Ht & ->).
  change (free_sum (take (scan_limit st) t)
          = free_sum (take (scan_limit st) (g_memoryTable st))).
  by eapply gc_loop_free_sum.
Qed.

(** The theorem at [two_free_blocks_state], where the collector merges
    the blocks of 8 and of [GLUS_MEMORY_SIZE - 8] bytes. *)
Lemma collect_conserves_free_capacity_witness :
  total_free (glusGarbageCollect two_free_blocks_state)
    = total_free two_free_blocks_state.
Proof.
  apply (collect_conserves_free_capacity 4096), two_free_blocks_reachable.
Defined.

Lemma gc_loop_count_le fuel limit t t' :
  gc_loop fuel limit t = Some t' -> (count_valid t' <= count_valid t)%nat.
Proof.
  revert t. induction fuel as [|f IH]; intros t H; [discriminate|].
  simpl in H. destruct (gc_pass limit t) as [t1 c1] eqn:Hp.
  apply gc_pass_cases in Hp as [(-> & -> & _)|(-> & Hlt)].
  - injection H as <-. lia.
  - apply IH in H. lia.
Qed.

(** X14. The collector makes progress: whenever two distinct Free
    blocks among the scanned slots pass its adjacency test, the table
    holds fewer valid entries when it returns, so at least one slot has
    become reusable. *)
Theorem collect_merges_when_possible (st : state) (i j : nat) :
  (i < scan_limit st)%nat -> (j < scan_limit st)%nat -> i <> j ->
  state_of (entry_at (g_memoryTable st) i) = Free ->
  state_of (entry_at (g_memoryTable st) j) = Free ->
  adjacent (entry_at (g_memoryTable st) i) (entry_at (g_memoryTable st) j) = true ->
  (count_valid (g_memoryTable (glusGarbageCollect st))
     < count_valid (g_memoryTable st))%nat.
Proof.
  intros Hi Hj Hne Hfi Hfj Hadj.
  apply state_of_Free in Hfi as [Hvi Hfi]. apply state_of_Free in Hfj as [Hvj Hfj].
  destruct (glusGarbageCollect_result st) as (t & Ht & ->).
  cbn [with_table g_memoryTable]. cbn [gc_loop] in Ht.
  destruct (gc_pass (scan_limit st) (g_memoryTable st)) as [t1 c1] eqn:Hp.
  apply gc_pass_cases in Hp as [(-> & -> & Hq)|(-> & Hlt)].
  - exfalso. specialize (Hq i ltac:(lia)). rewrite Hvi, Hfi in Hq.
    specialize (Hq eq_refl j ltac:(lia) ltac:(done)).
    unfold mergeable in Hq. rewrite Hvj, Hfj, Hadj in Hq. discriminate.
  - apply gc_loop_count_le in Ht. lia.
Qed.

(** The theorem at [two_free_blocks_state], slots 0 and 1. *)
Lemma collect_merges_when_possible_witness :
  (count_valid (g_memoryTable (glusGarbageCollect two_free_blocks_state))
     < count_valid (g_memoryTable two_free_blocks_state))%nat.
Proof.
  apply (collect_merges_when_possible two_free_blocks_state 0 1).
  - vm_compute. lia.
  - vm_compute. lia.
  - discriminate.
  - reflexivity.
  - reflexivity.
  - reflexivity.
Defined.

(** ** Accounting of the free capacity *)

Lemma free_sum_app t1 t2 : free_sum (t1 ++ t2) = free_sum t1 + free_sum t2.
Proof.
  induction t1 as [|e t1 IH]; [reflexivity|].
  change ((e :: t1) ++ t2) with (e :: (t1 ++ t2)).
  rewrite !free_sum_cons, IH. lia.
Qed.

Lemma free_sum_take_S (t : list GLUSmemoryTable) n :
  (n < List.length t)%nat ->
  free_sum (take (S n) t) = free_sum (take n t) + free_length (entry_at t n).
Proof.
  intros Hn. destruct (lookup_lt_is_Some_2 t n Hn) as [x Hx].
  rewrite (take_S_r _ _ _ Hx), free_sum_app, free_sum_cons.
  unfold entry_at. rewrite Hx. simpl. change (free_sum []) with 0. lia.
Qed.

Lemma glusFree_first p k st :
  p <> 0 -> (k < scan_limit st)%nat ->
  pointer (entry_at (g_memoryTable st) k) = p ->
  (forall j, (j < k)%nat -> pointer (entry_at (g_memoryTable st) j) <> p) ->
  glusFree p st =
    with_table st
      (<[k := set_free (entry_at (g_memoryTable st) k) true]> (g_memoryTable st)).
Proof.
  intros Hp Hk Hptr Hfirst. unfold glusFree.
  destruct (Z.eqb_spec p 0) as [?|_]; [done|].
  rewrite (first_index_least _ _ _ k Hk); [done| |].
  - by apply Z.eqb_eq.
  - intros j Hj. apply Z.eqb_neq. by apply Hfirst.
Qed.

Lemma glusFree_total_free p k st :
  p <> 0 -> (k < scan_limit st)%nat ->
  pointer (entry_at (g_memoryTable st) k) = p ->
  (forall j, (j < k)%nat -> pointer (entry_at (g_memoryTable st) j) <> p) ->
  total_free (glusFree p st) =
    total_free st
    + match state_of (entry_at (g_memoryTable st) k) with
      | Allocated => length (entry_at (g_memoryTable st) k)
      | _ => 0
      end.
Proof.
  intros Hp Hk Hptr Hfirst.
  assert (k < List.length (g_memoryTable st))%nat as Hlen
    by (apply pointer_in_table; congruence).
  rewrite (glusFree_first p k st) by done.
  change (free_sum (take (scan_limit st)
            (<[k := set_free (entry_at (g_memoryTable st) k) true]>
               (g_memoryTable st)))
          = free_sum (take (scan_limit st) (g_memoryTable st))
            + match state_of (entry_at (g_memoryTable st) k) with
              | Allocated => length (entry_at (g_memoryTable st) k)
              | _ => 0
              end).
  rewrite take_insert_lt by done.
  rewrite free_sum_insert by (rewrite length_take; lia).
  rewrite entry_at_take by done.
  unfold free_length, state_of, set_free; simpl.
  destruct (valid (entry_at (g_memoryTable st) k)),
           (free (entry_at (g_memoryTable st) k)); lia.
Qed.

Lemma free_length_remainder st e al :
  free_length (remainder_entry st e al) = to_size_t (length e - al).
Proof. reflexivity. Qed.

Lemma free_length_granted e l :
  free_length (set_length (set_free e false) l) = 0.
Proof. unfold free_length, state_of; simpl. by destruct (valid e). Qed.

Lemma grant_total_free size i st :
  table_inv st -> 0 <= size ->
  first_index (fits size) (g_memoryTable st) 0 (scan_limit st) = Some i ->
  (glusFindMemoryTableEntry st = None -> S i = g_memoryTableEntries st) ->
  total_free (grant size (rounded_size size) i st).2 =
    total_free st
    - length (entry_at (g_memoryTable (grant size (rounded_size size) i st).2) i).
Proof.
  intros (Hlen & Hcnt & HF) Hs Hi Hlast.
  apply first_index_Some in Hi as (Hilim & Hfit & _).
  apply fits_true in Hfit as (Hv & Hf & Hle).
  pose proof (entry_at_ok _ i HF) as (He1 & He2 & He3 & He4).
  pose proof (rounded_size_bounds size) as [Hb Hm].
  pose proof (valid_in_table _ _ Hv) as Hli.
  assert (free_length (entry_at (g_memoryTable st) i)
          = length (entry_at (g_memoryTable st) i)) as Hfl
    by (apply free_length_Free; by rewrite Hv, Hf).
  rewrite grant_entry by done. rewrite grant_eq by done.
  unfold other_index in *.
  destruct (glusFindMemoryTableEntry st) as [o|] eqn:Ho.
  - destruct (glusFindMemoryTableEntry_Some st o Ho) as (Holim & Hun).
    assert (o <> i) as Hoi.
    { intros ->. apply state_of_Unused in Hun. congruence. }
    assert (free_length (entry_at (g_memoryTable st) o) = 0) as Hflo
      by (unfold free_length; by rewrite Hun).
    unfold scan_limit in Holim, Hilim.
    destruct (Nat.leb_spec GLUS_MEMORY_TABLE_ENTRIES o) as [?|_]; [lia|].
    destruct (Nat.eqb_spec o (g_memoryTableEntries st)) as [?|_]; [lia|].
    unfold total_free, scan_limit.
    cbn [snd g_memoryTable g_memoryTableEntries length set_length].
    fold (free_sum (take (Nat.min (g_memoryTableEntries st) GLUS_MEMORY_TABLE_ENTRIES)
                      (<[i:=set_length (set_free (entry_at (g_memoryTable st) i) false)
                              (rounded_size size)]>
                         (<[o:=remainder_entry st (entry_at (g_memoryTable st) i)
                                 (rounded_size size)]> (g_memoryTable st))))).
    fold (free_sum (take (Nat.min (g_memoryTableEntries st) GLUS_MEMORY_TABLE_ENTRIES)
                      (g_memoryTable st))).
    rewrite !take_insert_lt by lia.
    rewrite free_sum_insert by (rewrite length_insert, length_take; lia).
    rewrite entry_at_insert_ne by done.
    rewrite free_sum_insert by (rewrite length_take; lia).
    rewrite !entry_at_take by lia. rewrite Hfl, Hflo.
    rewrite free_length_remainder, free_length_granted. clear HF. zlia.
  - specialize (Hlast eq_refl). unfold scan_limit in Hilim.
    destruct (Nat.leb_spec GLUS_MEMORY_TABLE_ENTRIES (S i)) as [Hfull|Hroom].
    + unfold total_free, scan_limit.
      cbn [snd with_table g_memoryTable g_memoryTableEntries length set_length].
      fold (free_sum (take (Nat.min (g_memoryTableEntries st) GLUS_MEMORY_TABLE_ENTRIES)
                        (<[i:=set_length (set_free (entry_at (g_memoryTable st) i) false)
                                (length (entry_at (g_memoryTable st) i))]>
                           (g_memoryTable st)))).
      fold (free_sum (take (Nat.min (g_memoryTableEntries st) GLUS_MEMORY_TABLE_ENTRIES)
                        (g_memoryTable st))).
      rewrite take_insert_lt by lia.
      rewrite free_sum_insert by (rewrite length_take; lia).
      rewrite entry_at_take by lia. rewrite Hfl, free_length_granted. lia.
    + rewrite <- Hlast. rewrite Nat.eqb_refl.
      unfold total_free, scan_limit.
      cbn [snd g_memoryTable g_memoryTableEntries length set_length].
      rewrite <- Hlast.
      replace (Nat.min (S (S i)) GLUS_MEMORY_TABLE_ENTRIES) with (S (S i)) by lia.
      replace (Nat.min (S i) GLUS_MEMORY_TABLE_ENTRIES) with (S i) by lia.
      fold (free_sum (take (S (S i))
                        (<[i:=set_length (set_free (entry_at (g_memoryTable st) i) false)
                                (rounded_size size)]>
                           (<[S i:=remainder_entry st (entry_at (g_memoryTable st) i)
                                     (rounded_size size)]> (g_memoryTable st))))).
      fold (free_sum (take (S i) (g_memoryTable st))).
      rewrite !take_insert_lt by lia.
      rewrite free_sum_insert by (rewrite length_insert, length_take; lia).
      rewrite entry_at_insert_ne by lia.
      rewrite free_sum_insert by (rewrite length_take; lia).
      rewrite !entry_at_take by lia.
      rewrite free_sum_take_S by lia.
      rewrite Hfl, free_length_remainder, free_length_granted. clear HF. zlia.
Qed.

Lemma glusInternalMalloc_grant size i st :
  table_inv st -> 0 <= size < SIZE_MODULUS ->
  first_index (fits size) (g_memoryTable st) 0 (scan_limit st) = Some i ->
  glusInternalMalloc size st = grant size (rounded_size size) i st.
Proof.
  intros (_ & _ & HF) Hs Hi. unfold glusInternalMalloc. rewrite Hi.
  apply first_index_Some in Hi as (_ & Hfit & _).
  apply fits_true in Hfit as (_ & _ & Hle).
  pose proof (entry_at_ok _ i HF) as (He1 & He2 & He3 & He4).
  pose proof (rounded_size_bounds size) as [Hb _].
  destruct (allocated_length_cases size Hs) as [[_ Hov]|(-> & -> & _)]; [|done].
  clear HF. zlia.
Qed.

(** X15. Release and the free capacity. [glusFree] of a non-null
    pointer whose first scanned match is an Allocated block raises the
    total free capacity by exactly the length of that block; when the
    first match is already Free, or Unused, the total stays as it is. *)
Theorem free_returns_block_length (st : state) (p : Z) (k : nat) :
  p <> 0 -> (k < scan_limit st)%nat ->
  pointer (entry_at (g_memoryTable st) k) = p ->
  (forall j, (j < k)%nat -> pointer (entry_at (g_memoryTable st) j) <> p) ->
  total_free (glusFree p st) =
    total_free st
    + match state_of (entry_at (g_memoryTable st) k) with
      | Allocated => length (entry_at (g_memoryTable st) k)
      | _ => 0
      end.
Proof. apply glusFree_total_free. Qed.

(** The theorem after [malloc(8)] on the initial state: releasing the
    pointer returned gives back 8 bytes. *)
Lemma free_returns_block_length_witness :
  total_free (glusFree 4096 (glusMalloc 8 (initial_state 4096)).2)
  = total_free (glusMalloc 8 (initial_state 4096)).2 + 8.
Proof.
  apply (free_returns_block_length (glusMalloc 8 (initial_state 4096)).2 4096 0).
  - discriminate.
  - vm_compute. lia.
  - reflexivity.
  - intros j Hj. lia.
Defined.

(** X16. Allocation and the free capacity. In a state of a run, when
    the remainder of a grant goes to an Unused slot or, there being none,
    the chosen block sits in the last activated slot, the grant lowers
    the total free capacity by exactly the length the granted block then
    tracks, which lies between the rounded size and the former length of
    the block. *)
Theorem grant_takes_block_length (arena : Z) (st : state) (size : Z) (i : nat) :
  reachable arena st -> 0 <= size < SIZE_MODULUS ->
  first_index (fits size) (g_memoryTable st) 0 (scan_limit st) = Some i ->
  (glusFindMemoryTableEntry st = None -> S i = g_memoryTableEntries st) ->
  total_free (glusInternalMalloc size st).2 =
    total_free st
    - length (entry_at (g_memoryTable (glusInternalMalloc size st).2) i) /\
  rounded_size size
    <= length (entry_at (g_memoryTable (glusInternalMalloc size st).2) i)
    <= length (entry_at (g_memoryTable st) i).
Proof.
  intros Hr Hs Hi Hlast. apply reachable_inv in Hr.
  rewrite (glusInternalMalloc_grant size i st Hr Hs Hi).
  split; [apply grant_total_free; (done || lia)|].
  pose proof Hr as (_ & _ & HF).
  apply first_index_Some in Hi as (_ & Hfit & _).
  apply fits_true in Hfit as (Hv & _ & Hle).
  pose proof (entry_at_ok _ i HF) as (He1 & He2 & He3 & He4).
  pose proof (rounded_size_bounds size) as [Hb Hm].
  rewrite grant_entry by done. cbn [length set_length].
  destruct (GLUS_MEMORY_TABLE_ENTRIES <=? other_index st i)%nat; clear HF; zlia.
Qed.

(** The theorem at the initial state and a request of 10 bytes. *)
Lemma grant_takes_block_length_witness :
  total_free (glusInternalMalloc 10 (initial_state 4096)).2 =
    total_free (initial_state 4096)
    - length (entry_at (g_memoryTable (glusInternalMalloc 10 (initial_state 4096)).2) 0).
Proof.
  destruct (grant_takes_block_length 4096 (initial_state 4096) 10 0) as [H _].
  - apply reach_init.
  - unfold SIZE_MODULUS. lia.
  - reflexivity.
  - intros _. reflexivity.
  - exact H.
Defined.

(** X17. Round trip. In a state of a run, let [glusMalloc] grant slot
    [i] with a non-null stored pointer, the remainder going to an Unused
    slot or, there being none, slot [i] being the last activated one, and
    let no earlier slot store the same pointer afterwards. Then
    [glusFree] of the pointer returned makes slot [i] Free again and the
    total free capacity is what it was before the allocation. *)
Theorem malloc_free_restores_capacity
    (arena : Z) (st : state) (size : Z) (i : nat) :
  reachable arena st -> 0 < size < SIZE_MODULUS ->
  first_index (fits size) (g_memoryTable st) 0 (scan_limit st) = Some i ->
  pointer (entry_at (g_memoryTable st) i) <> 0 ->
  (glusFindMemoryTableEntry st = None -> S i = g_memoryTableEntries st) ->
  (forall k, (k < i)%nat ->
     pointer (entry_at (g_memoryTable (glusMalloc size st).2) k)
       <> pointer (entry_at (g_memoryTable st) i)) ->
  (glusMalloc size st).1 = pointer (entry_at (g_memoryTable st) i) /\
  state_of
    (entry_at
       (g_memoryTable (glusFree (glusMalloc size st).1 (glusMalloc size st).2)) i)
    = Free /\
  total_free (glusFree (glusMalloc size st).1 (glusMalloc size st).2)
    = total_free st.
Proof.
  intros Hr Hs Hi Hptr Hlast. apply reachable_inv in Hr.
  pose proof Hi as Hi'. apply first_index_Some in Hi' as (Hilim & Hfit & _).
  apply fits_true in Hfit as (Hv & Hf & Hle).
  assert (glusMalloc size st = grant size (rounded_size size) i st) as ->.
  { unfold glusMalloc. destruct (Z.eqb_spec size 0) as [?|_]; [lia|].
    rewrite (glusInternalMalloc_grant size i st Hr ltac:(lia) Hi).
    pose proof (grant_pointer size (rounded_size size) i st Hv) as Hp.
    destruct (grant size (rounded_size size) i st) as [q st1]; simpl in Hp.
    destruct (Z.eqb_spec q 0) as [?|_]; [congruence|done]. }
  intros Hfirst.
  pose proof (grant_pointer size (rounded_size size) i st Hv) as Hp.
  pose proof (grant_entry size (rounded_size size) i st Hv) as He.
  pose proof (grant_counter size (rounded_size size) i st) as [Hc _].
  pose proof (grant_total_free size i st Hr ltac:(lia) Hi Hlast) as Htot.
  set (st1 := (grant size (rounded_size size) i st).2) in *.
  rewrite Hp. split; [done|].
  assert (i < scan_limit st1)%nat as Hi1
    by (pose proof (scan_limit_mono st st1 Hc); lia).
  assert (pointer (entry_at (g_memoryTable st1) i)
          = pointer (entry_at (g_memoryTable st) i)) as Hp1 by (by rewrite He).
  assert (state_of (entry_at (g_memoryTable st1) i) = Allocated) as Ha1.
  { rewrite He. by apply state_of_Allocated. }
  split.
  - rewrite (glusFree_first _ i st1) by done.
    cbn [with_table g_memoryTable].
    rewrite entry_at_insert_eq
      by (apply pointer_in_table; congruence).
    apply state_of_Allocated in Ha1 as [Hv1 _].
    apply state_of_Free. by simpl.
  - rewrite (glusFree_total_free _ i st1) by done. rewrite Ha1, Htot. lia.
Qed.

(** The theorem at the initial state and a request of 100 bytes. *)
Lemma malloc_free_restores_capacity_witness :
  total_free
    (glusFree (glusMalloc 100 (initial_state 4096)).1
       (glusMalloc 100 (initial_state 4096)).2)
  = total_free (initial_state 4096).
Proof.
  destruct (malloc_free_restores_capacity 4096 (initial_state 4096) 100 0)
    as (_ & _ & H).
  - apply reach_init.
  - unfold SIZE_MODULUS. lia.
  - reflexivity.
  - vm_compute. discriminate.
  - intros _. reflexivity.
  - intros k Hk. lia.
  - exact H.
Defined.

(** ** Slots that were never activated *)

Lemma initial_table_rest arena k :
  entry_at (initial_table arena) (S k) = zero_entry.
Proof.
  unfold entry_at, initial_table.
  change ((?e :: ?t) !! S k) with (t !! k).
  destruct (replicate (GLUS_MEMORY_TABLE_ENTRIES - 1) zero_entry !! k)
    as [y|] eqn:E; [|done].
  apply lookup_replicate in E as [-> _]. done.
Qed.

Lemma grant_beyond_counter size al i st k :
  valid (entry_at (g_memoryTable st) i) = true ->
  (i < scan_limit st)%nat ->
  (g_memoryTableEntries (grant size al i st).2 <= k)%nat ->
  entry_at (g_memoryTable (grant size al i st).2) k
    = entry_at (g_memoryTable st) k.
Proof.
  intros Hv Hi. rewrite grant_eq by done.
  assert (other_index st i <= g_memoryTableEntries st)%nat as Ho.
  { unfold other_index. destruct (glusFindMemoryTableEntry st) as [o|] eqn:E.
    - apply glusFindMemoryTableEntry_Some in E as [E _].
      unfold scan_limit in E. lia.
    - unfold scan_limit in Hi. lia. }
  unfold scan_limit in Hi.
  destruct (Nat.leb_spec GLUS_MEMORY_TABLE_ENTRIES (other_index st i)) as [?|_];
    cbn [snd with_table g_memoryTable g_memoryTableEntries]; intros Hk.
  - rewrite entry_at_insert_ne by lia. done.
  - destruct (Nat.eqb_spec (other_index st i) (g_memoryTableEntries st));
      rewrite !entry_at_insert_ne by lia; done.
Qed.

Lemma glusInternalMalloc_beyond_counter size st k :
  (g_memoryTableEntries (glusInternalMalloc size st).2 <= k)%nat ->
  entry_at (g_memoryTable (glusInternalMalloc size st).2) k
    = entry_at (g_memoryTable st) k.
Proof.
  unfold glusInternalMalloc. destruct (allocated_length size <? size); [done|].
  destruct (first_index _ _ _ _) as [i|] eqn:E; [|done].
  apply first_index_Some in E as (Hi & Hfit & _).
  apply fits_true in Hfit as (Hv & _ & _).
  apply grant_beyond_counter; [done|lia].
Qed.

(** X18. The allocator never writes past the counter of activated
    slots: in every state of a run, each slot at or beyond
    [g_memoryTableEntries] is still the all-zero entry of the static
    initialisation. *)
Theorem slots_beyond_counter_untouched (arena : Z) (st : state) (k : nat) :
  reachable arena st -> (g_memoryTableEntries st <= k)%nat ->
  entry_at (g_memoryTable st) k = zero_entry.
Proof.
  intros Hr. revert k.
  induction Hr as [|st size _ IH Hs|st p _ IH|st i v _ IH Hi Hv]; intros k Hk.
  - simpl in Hk. destruct k as [|k]; [lia|]. apply initial_table_rest.
  - revert Hk. unfold glusMalloc. destruct (size =? 0); [apply IH|].
    pose proof (glusInternalMalloc_counter size st) as Hc1.
    pose proof (glusInternalMalloc_beyond_counter size st) as Hb1.
    destruct (glusInternalMalloc size st) as [q st1]; simpl in Hc1, Hb1.
    destruct (q =? 0); cbn [snd].
    + intros Hk.
      pose proof (glusInternalMalloc_counter size (glusGarbageCollect st1)) as Hc2.
      rewrite glusGarbageCollect_counter in Hc2.
      rewrite glusInternalMalloc_beyond_counter by done.
      assert (entry_at (g_memoryTable st1) k = zero_entry) as Hz
        by (rewrite Hb1 by lia; apply IH; lia).
      destruct (glusGarbageCollect_result st1) as (t & Ht & ->).
      apply gc_loop_frame in Ht as [_ Hf]. cbn [with_table g_memoryTable].
      destruct (Hf k) as (_ & _ & _ & _ & Hsame).
      rewrite Hsame; [done|]. by rewrite Hz.
    + intros Hk. rewrite Hb1 by done. apply IH. lia.
  - rewrite glusFree_counter in Hk. specialize (IH k Hk).
    unfold glusFree. destruct (p =? 0); [done|].
    destruct (first_index _ _ _ _) as [j|] eqn:E; [|done].
    apply first_index_Some in E as (Hj & _ & _).
    cbn [with_table g_memoryTable]. rewrite entry_at_insert_ne; [done|].
    unfold scan_limit in Hj. lia.
  - by apply IH.
Qed.

(** The theorem at [fragmented_state], whose counter is 4, and slot 4. *)
Lemma slots_beyond_counter_untouched_witness :
  entry_at (g_memoryTable fragmented_state) 4 = zero_entry.
Proof.
  apply (slots_beyond_counter_untouched 4096).
  - apply fragmented_reachable.
  - vm_compute. lia.
Defined.

(** * Two claims revisited: blocks never overlap, pointers may lie *)

(** ** Valid blocks are pairwise disjoint *)

Lemma entry_at_merge t i j k :
  i <> j -> valid (entry_at t i) = true -> valid (entry_at t j) = true ->
  entry_at (merge t i j) k =
    if decide (k = j) then set_valid (entry_at t j) false
    else if decide (k = i)
         then set_length (entry_at t i)
                (to_size_t (length (entry_at t i) + length (entry_at t j)))
         else entry_at t k.
Proof.
  intros Hne Hvi Hvj. unfold merge.
  pose proof (valid_in_table _ _ Hvi) as Hli.
  pose proof (valid_in_table _ _ Hvj) as Hlj.
  destruct (decide (k = j)) as [->|Hkj].
  - rewrite entry_at_insert_eq by (by rewrite length_insert).
    by rewrite entry_at_insert_ne.
  - rewrite entry_at_insert_ne by done.
    destruct (decide (k = i)) as [->|Hki].
    + by rewrite entry_at_insert_eq.
    + by rewrite entry_at_insert_ne.
Qed.

(** A merge replaces two neighbours by the block that covers both. *)
Lemma merge_disjoint t i j :
  Forall entry_ok t -> i <> j ->
  valid (entry_at t i) && free (entry_at t i) = true ->
  mergeable t i j = true ->
  blocks_disjoint t -> blocks_disjoint (merge t i j).
Proof.
  intros HF Hne Hvfi Hm Hd.
  pose proof (mergeable_free _ _ _ Hm) as Hvfj.
  apply andb_true_iff in Hvfi as [Hvi _]. apply andb_true_iff in Hvfj as [Hvj _].
  pose proof (entry_at_ok t i HF) as (Ha1 & Ha2 & Ha3 & Ha4).
  pose proof (entry_at_ok t j HF) as (Hb1 & Hb2 & Hb3 & Hb4).
  unfold mergeable in Hm. apply andb_true_iff in Hm as [_ Hadj].
  unfold adjacent in Hadj. apply Z.eqb_eq in Hadj.
  assert (to_size_t (length (entry_at t i) + length (entry_at t j))
          = length (entry_at t i) + length (entry_at t j)) as E1
    by (clear HF Hd; zlia).
  assert (4 * startIndex (entry_at t j)
          = 4 * startIndex (entry_at t i) + length (entry_at t i)) as E2
    by (clear HF Hd; zlia).
  intros a b Hab Hva Hvb (x & Hx1 & Hx2).
  rewrite entry_at_merge in Hva, Hvb, Hx1, Hx2 by done.
  destruct (decide (a = j)) as [->|Haj]; [done|].
  destruct (decide (b = j)) as [->|Hbj]; [done|].
  unfold WORD in *.
  destruct (decide (a = i)) as [->|Hai], (decide (b = i)) as [->|Hbi].
  - done.
  - cbn [startIndex length set_length] in Hx1. rewrite E1 in Hx1.
    destruct (Z_lt_dec x (4 * startIndex (entry_at t i) + length (entry_at t i))).
    + apply (Hd i b Hab Hvi Hvb). exists x. unfold WORD. split; lia.
    + apply (Hd j b ltac:(done) Hvj Hvb). exists x. unfold WORD. split; lia.
  - cbn [startIndex length set_length] in Hx2. rewrite E1 in Hx2.
    destruct (Z_lt_dec x (4 * startIndex (entry_at t i) + length (entry_at t i))).
    + apply (Hd a i Hab Hva Hvi). exists x. unfold WORD. split; lia.
    + apply (Hd a j ltac:(done) Hva Hvj). exists x. unfold WORD. split; lia.
  - apply (Hd a b Hab Hva Hvb). exists x. unfold WORD. split; lia.
Qed.

Lemma gc_inner_disjoint rem i j t c :
  Forall entry_ok t ->
  valid (entry_at t i) && free (entry_at t i) = true ->
  blocks_disjoint t -> blocks_disjoint (gc_inner rem i j t c).1.
Proof.
  revert j t c. induction rem as [|r IH]; intros j t c HF Hvi Hd; simpl; [done|].
  destruct (Nat.eqb_spec j i) as [->|Hne]; [by apply IH|].
  fold (mergeable t i j). fold (merge t i j).
  destruct (mergeable t i j) eqn:Hm; [|by apply IH].
  destruct (merge_frame t i j ltac:(done) Hvi (mergeable_free _ _ _ Hm))
    as [_ Hvi'].
  apply IH; [by apply merge_ok|done|by apply merge_disjoint].
Qed.

Lemma gc_outer_disjoint rem i limit t c :
  Forall entry_ok t -> blocks_disjoint t ->
  blocks_disjoint (gc_outer rem i limit t c).1.
Proof.
  revert i t c. induction rem as [|r IH]; intros i t c HF Hd; simpl; [done|].
  destruct (valid (entry_at t i) && free (entry_at t i)) eqn:Hvf; [|by apply IH].
  pose proof (gc_inner_disjoint limit i 0 t c HF Hvf Hd) as Hd1.
  pose proof (gc_inner_inv limit i 0 t c HF) as [HF1 _].
  destruct (gc_inner limit i 0 t c) as [t1 c1]; simpl in *. by apply IH.
Qed.

Lemma gc_loop_disjoint fuel limit t t' :
  gc_loop fuel limit t = Some t' -> Forall entry_ok t ->
  blocks_disjoint t -> blocks_disjoint t'.
Proof.
  revert t. induction fuel as [|f IH]; intros t H HF Hd; [discriminate|].
  simpl in H. unfold gc_pass in H.
  pose proof (gc_outer_disjoint limit 0 limit t false HF Hd) as Hd1.
  pose proof (gc_outer_inv limit 0 limit t false HF) as [HF1 _].
  destruct (gc_outer limit 0 limit t false) as [t1 [|]]; simpl in *.
  - by apply (IH t1).
  - by injection H as <-.
Qed.

Lemma glusGarbageCollect_disjoint st :
  table_inv st -> blocks_disjoint (g_memoryTable st) ->
  blocks_disjoint (g_memoryTable (glusGarbageCollect st)).
Proof.
  intros (_ & _ & HF) Hd.
  destruct (glusGarbageCollect_result st) as (t & Ht & ->).
  cbn [with_table g_memoryTable]. by eapply gc_loop_disjoint.
Qed.

Lemma glusFree_range p st k :
  valid (entry_at (g_memoryTable (glusFree p st)) k)
    = valid (entry_at (g_memoryTable st) k) /\
  startIndex (entry_at (g_memoryTable (glusFree p st)) k)
    = startIndex (entry_at (g_memoryTable st) k) /\
  length (entry_at (g_memoryTable (glusFree p st)) k)
    = length (entry_at (g_memoryTable st) k).
Proof.
  unfold glusFree. destruct (p =? 0); [done|].
  destruct (first_index _ _ _ _) as [j|]; [|done].
  cbn [with_table g_memoryTable]. rewrite entry_at_insert.
  by destruct (decide _) as [[-> _]|_].
Qed.

Lemma glusFree_disjoint p st :
  blocks_disjoint (g_memoryTable st) ->
  blocks_disjoint (g_memoryTable (glusFree p st)).
Proof.
  intros Hd a b Hab Hva Hvb (x & Hx1 & Hx2).
  destruct (glusFree_range p st a) as (Ea1 & Ea2 & Ea3).
  destruct (glusFree_range p st b) as (Eb1 & Eb2 & Eb3).
  rewrite Ea1 in Hva. rewrite Eb1 in Hvb.
  rewrite Ea2, Ea3 in Hx1. rewrite Eb2, Eb3 in Hx2.
  apply (Hd a b Hab Hva Hvb). by exists x.
Qed.

(** Every slot after a grant. *)
Lemma grant_entries size al i st k :
  table_inv st -> valid (entry_at (g_memoryTable st) i) = true ->
  entry_at (g_memoryTable (grant size al i st).2) k =
    if decide (k = i) then
      set_length (set_free (entry_at (g_memoryTable st) i) false)
        (if (GLUS_MEMORY_TABLE_ENTRIES <=? other_index st i)%nat
         then length (entry_at (g_memoryTable st) i) else al)
    else if decide (k = other_index st i /\
                    (other_index st i < GLUS_MEMORY_TABLE_ENTRIES)%nat)
         then remainder_entry st (entry_at (g_memoryTable st) i) al
         else entry_at (g_memoryTable st) k.
Proof.
  intros (Hlen & _ & _) Hv.
  destruct (decide (k = i)) as [->|Hki]; [by apply grant_entry|].
  destruct (decide (k = other_index st i)) as [->|Hko].
  - pose proof (grant_remainder size al i st Hv) as Hr. cbn zeta in Hr.
    rewrite Hr, Hlen.
    destruct (decide ((other_index st i < GLUS_MEMORY_TABLE_ENTRIES)%nat /\
                      (other_index st i < GLUS_MEMORY_TABLE_ENTRIES)%nat))
      as [[H1 _]|Hn1];
      destruct (decide (other_index st i = other_index st i /\
                        (other_index st i < GLUS_MEMORY_TABLE_ENTRIES)%nat))
        as [[_ H2]|Hn2]; try done; exfalso.
    + by apply Hn2.
    + by apply Hn1.
  - rewrite grant_other by done.
    destruct (decide _) as [[? _]|_]; done.
Qed.

(** A grant cuts the chosen block in two, or leaves its range alone. *)
Lemma grant_disjoint size i st :
  table_inv st -> 0 <= size ->
  fits size (entry_at (g_memoryTable st) i) = true ->
  blocks_disjoint (g_memoryTable st) ->
  blocks_disjoint (g_memoryTable (grant size (rounded_size size) i st).2).
Proof.
  intros Hinv Hs Hfit Hd. pose proof Hinv as (_ & _ & HF).
  apply fits_true in Hfit as (Hv & _ & Hle).
  pose proof (entry_at_ok _ i HF) as (He1 & He2 & He3 & He4).
  pose proof (rounded_size_bounds size) as [Hb Hm].
  set (e := entry_at (g_memoryTable st) i) in *.
  set (o := other_index st i) in *.
  assert (4 * to_size_t (startIndex e + rounded_size size / 4)
          = 4 * startIndex e + rounded_size size) as E1 by (clear HF Hd; zlia).
  assert (to_size_t (length e - rounded_size size)
          = length e - rounded_size size) as E2 by (clear HF Hd; zlia).
  assert (rounded_size size <= length e) as E3 by (clear HF Hd; zlia).
  intros a b Hab Hva Hvb (x & Hx1 & Hx2). unfold WORD in *.
  rewrite grant_entries in Hva, Hvb, Hx1, Hx2 by done. fold e o in Hva, Hvb, Hx1, Hx2.
  assert (forall c, c <> i -> valid (entry_at (g_memoryTable st) c) = true ->
            4 * startIndex e <= x < 4 * startIndex e + length e ->
            4 * startIndex (entry_at (g_memoryTable st) c) <= x
              < 4 * startIndex (entry_at (g_memoryTable st) c)
                + length (entry_at (g_memoryTable st) c) -> False) as Hold.
  { intros c Hci Hvc Hxe Hxc. apply (Hd i c ltac:(done) Hv Hvc).
    exists x. unfold WORD. fold e. split; lia. }
  destruct (decide (a = i)) as [->|Hai], (decide (b = i)) as [->|Hbi]; [done| | |].
  - cbn [startIndex length set_length set_free] in Hx1.
    destruct (decide (b = o /\ (o < GLUS_MEMORY_TABLE_ENTRIES)%nat)) as [[-> Ho]|_].
    + cbn [startIndex length remainder_entry] in Hx2.
      destruct (Nat.leb_spec GLUS_MEMORY_TABLE_ENTRIES o) as [?|_]; lia.
    + apply (Hold b Hbi Hvb); [|done].
      destruct (GLUS_MEMORY_TABLE_ENTRIES <=? o)%nat; lia.
  - cbn [startIndex length set_length set_free] in Hx2.
    destruct (decide (a = o /\ (o < GLUS_MEMORY_TABLE_ENTRIES)%nat)) as [[-> Ho]|_].
    + cbn [startIndex length remainder_entry] in Hx1.
      destruct (Nat.leb_spec GLUS_MEMORY_TABLE_ENTRIES o) as [?|_]; lia.
    + apply (Hold a Hai Hva); [|done].
      destruct (GLUS_MEMORY_TABLE_ENTRIES <=? o)%nat; lia.
  - destruct (decide (a = o /\ (o < GLUS_MEMORY_TABLE_ENTRIES)%nat)) as [[-> Ho]|_],
             (decide (b = o /\ (o < GLUS_MEMORY_TABLE_ENTRIES)%nat)) as [[-> Ho']|_].
    + done.
    + cbn [startIndex length remainder_entry] in Hx1.
      apply (Hold b Hbi Hvb); [lia|done].
    + cbn [startIndex length remainder_entry] in Hx2.
      apply (Hold a Hai Hva); [lia|done].
    + apply (Hd a b Hab Hva Hvb). exists x. unfold WORD. split; lia.
Qed.

Lemma glusInternalMalloc_disjoint size st :
  table_inv st -> 0 <= size < SIZE_MODULUS ->
  blocks_disjoint (g_memoryTable st) ->
  blocks_disjoint (g_memoryTable (glusInternalMalloc size st).2).
Proof.
  intros Hinv Hs Hd. unfold glusInternalMalloc.
  destruct (allocated_length_cases size Hs) as [[-> _]|(-> & Hal & _)]; [done|].
  destruct (first_index _ _ _ _) as [i|] eqn:E; [|done].
  apply first_index_Some in E as (_ & Hfit & _). rewrite Hal.
  apply grant_disjoint; [done|lia|done|done].
Qed.

Lemma initial_state_disjoint arena :
  blocks_disjoint (g_memoryTable (initial_state arena)).
Proof.
  intros a b Hab Hva Hvb _. cbn [initial_state g_memoryTable] in Hva, Hvb.
  destruct a as [|a]; [destruct b as [|b]; [done|]|].
  - by rewrite initial_table_rest in Hvb.
  - by rewrite initial_table_rest in Hva.
Qed.

(** In every state of a run, no two valid blocks share a byte. *)
Lemma reachable_disjoint arena st :
  reachable arena st -> blocks_disjoint (g_memoryTable st).
Proof.
  induction 1 as [|st size Hr IH Hs|st p _ IH|st i v _ IH Hi Hv].
  - apply initial_state_disjoint.
  - apply reachable_inv in Hr. unfold glusMalloc. destruct (size =? 0); [done|].
    pose proof (glusInternalMalloc_disjoint size st Hr Hs IH) as Hd1.
    pose proof (glusInternalMalloc_inv size st Hr Hs) as Hi1.
    destruct (glusInternalMalloc size st) as [q st1]; simpl in Hd1, Hi1.
    destruct (q =? 0); [|done].
    apply glusInternalMalloc_disjoint;
      [by apply glusGarbageCollect_inv|done|by apply glusGarbageCollect_disjoint].
  - by apply glusFree_disjoint.
  - done.
Qed.

Lemma search_state_inv size st : table_inv st -> table_inv (search_state size st).
Proof.
  intros H. unfold search_state.
  destruct (first_index _ _ _ _); [done|by apply glusGarbageCollect_inv].
Qed.

(** When the chosen block of [search_state] stores a non-null pointer,
    [glusMalloc] is the grant of that block there. *)
Lemma glusMalloc_search size i st :
  table_inv st -> 0 < size < SIZE_MODULUS ->
  first_index (fits size) (g_memoryTable (search_state size st)) 0
    (scan_limit (search_state size st)) = Some i ->
  pointer (entry_at (g_memoryTable (search_state size st)) i) <> 0 ->
  glusMalloc size st = grant size (rounded_size size) i (search_state size st).
Proof.
  intros Hinv Hs Hi Hp.
  pose proof (search_state_inv size st Hinv) as Hinv0.
  pose proof (glusInternalMalloc_grant size i _ Hinv0 ltac:(lia) Hi) as Hg.
  pose proof Hi as Hi'. apply first_index_Some in Hi' as (_ & Hfit & _).
  apply fits_true in Hfit as (Hv & _ & _).
  pose proof (grant_pointer size (rounded_size size) i _ Hv) as Hgp.
  unfold glusMalloc. destruct (Z.eqb_spec size 0) as [?|_]; [lia|].
  revert Hi Hp Hg Hv Hgp. unfold search_state.
  destruct (first_index (fits size) (g_memoryTable st) 0 (scan_limit st))
    as [i'|] eqn:E; intros Hi Hp Hg Hv Hgp.
  - rewrite Hg.
    destruct (grant size (rounded_size size) i st) as [q st1]; simpl in Hgp.
    destruct (Z.eqb_spec q 0) as [?|_]; [congruence|done].
  - assert (glusInternalMalloc size st = (0, st)) as ->.
    { unfold glusInternalMalloc. rewrite E.
      by destruct (allocated_length size <? size). }
    change (0 =? 0) with true. cbn match. exact Hg.
Qed.

(** C1, amended. In every state of a run and for every size [s > 0]:
    let some Free block have length at least [s] in the table as it is
    or, when none has, in the table as one run of the collector leaves
    it; let slot [i] be the first such block in table order, and let its
    stored pointer be the address of its start, arena base plus [start *
    W], not null. Then [glusMalloc s] returns that address; the block is
    Allocated afterwards, starts where it started and tracks at least [s]
    bytes and at most its former length; and the region of that length
    at the returned pointer overlaps the byte range of no other block in
    state Allocated. *)
Theorem malloc_returns_disjoint_region
    (arena : Z) (st : state) (size : Z) (i : nat) :
  reachable arena st -> 0 < size < SIZE_MODULUS ->
  (i < scan_limit (search_state size st))%nat ->
  state_of (entry_at (g_memoryTable (search_state size st)) i) = Free ->
  size <= length (entry_at (g_memoryTable (search_state size st)) i) ->
  (forall k, (k < i)%nat ->
     ~ (state_of (entry_at (g_memoryTable (search_state size st)) k) = Free /\
        size <= length (entry_at (g_memoryTable (search_state size st)) k))) ->
  pointer (entry_at (g_memoryTable (search_state size st)) i)
    = address arena (entry_at (g_memoryTable (search_state size st)) i) ->
  pointer (entry_at (g_memoryTable (search_state size st)) i) <> 0 ->
  (glusMalloc size st).1
    = address arena (entry_at (g_memoryTable (search_state size st)) i) /\
  (glusMalloc size st).1 <> 0 /\
  (glusMalloc size st).1
    = address arena (entry_at (g_memoryTable (glusMalloc size st).2) i) /\
  state_of (entry_at (g_memoryTable (glusMalloc size st).2) i) = Allocated /\
  startIndex (entry_at (g_memoryTable (glusMalloc size st).2) i)
    = startIndex (entry_at (g_memoryTable (search_state size st)) i) /\
  size <= length (entry_at (g_memoryTable (glusMalloc size st).2) i)
       <= length (entry_at (g_memoryTable (search_state size st)) i) /\
  forall j, j <> i ->
    state_of (entry_at (g_memoryTable (glusMalloc size st).2) j) = Allocated ->
    ~ region_overlap
        (glusMalloc size st).1
        (length (entry_at (g_memoryTable (glusMalloc size st).2) i))
        (address arena (entry_at (g_memoryTable (glusMalloc size st).2) j))
        (length (entry_at (g_memoryTable (glusMalloc size st).2) j)).
Proof.
  intros Hr Hs Hi Hfree Hle Hleast Haddr Hptr.
  assert (blocks_disjoint (g_memoryTable (glusMalloc size st).2)) as Hd.
  { apply (reachable_disjoint arena), reach_malloc; [done|lia]. }
  apply reachable_inv in Hr.
  pose proof (search_state_inv size st Hr) as (_ & _ & HF0).
  pose proof (entry_at_ok _ i HF0) as (He1 & He2 & He3 & He4).
  pose proof (rounded_size_bounds size) as [Hb Hm].
  apply state_of_Free in Hfree as [Hv Hf].
  assert (first_index (fits size) (g_memoryTable (search_state size st)) 0
            (scan_limit (search_state size st)) = Some i) as Hfirst.
  { apply first_index_least; [done| |].
    - unfold fits. rewrite Hv, Hf. simpl. by apply Z.leb_le.
    - intros k Hk.
      destruct (fits size (entry_at (g_memoryTable (search_state size st)) k))
        eqn:E; [|done].
      apply fits_true in E as (Hvk & Hfk & Hlk).
      destruct (Hleast k Hk). split; [by apply state_of_Free|done]. }
  rewrite (glusMalloc_search size i st Hr Hs Hfirst Hptr) in *.
  set (st0 := search_state size st) in *.
  set (e := entry_at (g_memoryTable st0) i) in *.
  pose proof (grant_entry size (rounded_size size) i st0 Hv) as He. fold e in He.
  rewrite grant_pointer by done. fold e.
  assert (rounded_size size <= length e) as Hrl by (clear HF0 Hd; zlia).
  assert (size <= length (entry_at (g_memoryTable
                     (grant size (rounded_size size) i st0).2) i) <= length e) as Hlen.
  { rewrite He. cbn [length set_length].
    destruct (GLUS_MEMORY_TABLE_ENTRIES <=? other_index st0 i)%nat; lia. }
  assert (startIndex (entry_at (g_memoryTable
                        (grant size (rounded_size size) i st0).2) i)
          = startIndex e) as Hstart by (by rewrite He).
  assert (valid (entry_at (g_memoryTable
                   (grant size (rounded_size size) i st0).2) i) = true) as Hvi
    by (by rewrite He).
  split; [done|]. split; [congruence|].
  split; [unfold address; by rewrite Hstart|].
  split; [rewrite He; by apply state_of_Allocated|].
  split; [done|]. split; [done|].
  intros j Hji Hj (x & Hx1 & Hx2).
  apply state_of_Allocated in Hj as [Hvj _].
  apply (Hd i j ltac:(done) Hvi Hvj).
  exists (x - arena). rewrite Haddr in Hx1. unfold address in Hx1, Hx2.
  rewrite Hstart. unfold WORD in *. split; lia.
Qed.

(** The theorem at [two_free_blocks_state] and a request of
    [GLUS_MEMORY_SIZE] bytes, which neither Free block holds before the
    collector has merged them. *)
Lemma malloc_returns_disjoint_region_witness :
  search_state GLUS_MEMORY_SIZE two_free_blocks_state
    = glusGarbageCollect two_free_blocks_state /\
  (glusMalloc GLUS_MEMORY_SIZE two_free_blocks_state).1 = 4096 /\
  state_of
    (entry_at (g_memoryTable (glusMalloc GLUS_MEMORY_SIZE two_free_blocks_state).2) 0)
    = Allocated.
Proof.
  split; [reflexivity|].
  destruct (malloc_returns_disjoint_region 4096 two_free_blocks_state
              GLUS_MEMORY_SIZE 0) as (H1 & _ & _ & H2 & _).
  - apply two_free_blocks_reachable.
  - vm_compute. split; reflexivity.
  - vm_compute. lia.
  - vm_compute. reflexivity.
  - vm_compute. discriminate.
  - intros k Hk. lia.
  - vm_compute. reflexivity.
  - vm_compute. discriminate.
  - split; [exact H1|exact H2].
Defined.

Lemma stale_pointer_reachable : reachable 4096 stale_pointer_state.
Proof.
  unfold stale_pointer_state.
  apply reach_malloc; [apply reach_malloc; [apply reach_free, reach_store;
    [apply reach_malloc; [apply reach_init|]| |]|]|];
    vm_compute; split; (reflexivity || discriminate).
Qed.

(** C6. [free] of a pointer that is the address of no tracked block's
    start can change the table. In [stale_pointer_state] the activated
    slots hold blocks that start at the addresses 4096, 4104 and 4112;
    4100 is none of them, it points into the block at 4096. Yet
    [glusFree 4100] turns the Allocated block of slot 1 into a Free one,
    because that block stores 4100, the word read from the arena when it
    was split off, as its pointer; and [glusFree 4104], with the address
    of that block's start, releases nothing. [glusFree 0] does
    nothing. *)
Theorem free_of_interior_pointer_releases_block :
  reachable 4096 stale_pointer_state /\
  map (fun e => (state_of e, address 4096 e, length e, pointer e))
      (take (scan_limit stale_pointer_state) (g_memoryTable stale_pointer_state))
    = [(Allocated, 4096, 8, 4096); (Allocated, 4104, 8, 4100); (Free, 4112, 0, 0)] /\
  4096 < 4100 < 4096 + 8 /\
  state_of (entry_at (g_memoryTable stale_pointer_state) 1) = Allocated /\
  state_of (entry_at (g_memoryTable (glusFree 4100 stale_pointer_state)) 1) = Free /\
  glusFree 4100 stale_pointer_state <> stale_pointer_state /\
  glusFree 4104 stale_pointer_state = stale_pointer_state /\
  glusFree 0 stale_pointer_state = stale_pointer_state.
Proof.
  split; [apply stale_pointer_reachable|].
  split; [vm_compute; reflexivity|]. split; [lia|].
  split; [vm_compute; reflexivity|]. split; [vm_compute; reflexivity|].
  split.
  { intros Heq.
    apply (f_equal (fun s => state_of (entry_at (g_memoryTable s) 1))) in Heq.
    vm_compute in Heq. discriminate. }
  split; [|reflexivity].
  unfold glusFree. change (4104 =? 0) with false. cbn match.
  by replace (first_index (fun e => pointer e =? 4104)
                (g_memoryTable stale_pointer_state) 0
                (scan_limit stale_pointer_state))
    with (@None nat) by (vm_compute; reflexivity).
Qed.
